(** * flapison.schema: helpers to deal with marshmallow schemas

    A shallow embedding of [src/flapison/schema.py] and the properties
    of its functions: [compute_schema], [get_model_field],
    [get_nested_fields], [get_relationships], [get_related_schema],
    [get_schema_from_type] and [get_schema_field].

    Python dictionaries whose iteration order is observed
    ([_declared_fields], the class registry) are association lists;
    dictionaries that are only looked up ([related_includes],
    [related_only], [related_exclude], [qs.fields]) are [gmap]s; Python
    sets are [gset]s and [tuple(a_set)] is [elements]. Exceptions are
    values of [exn]; the caller's [default_kwargs] dictionary, which
    [compute_schema] aliases and writes to, is passed in and out. *)

From stdpp Require Import gmap strings list fin_maps.
From Stdlib Require Import String Ascii.

Open Scope string_scope.

(** ** Exceptions and results *)

(** Modelled from the spec: [InvalidInclude] is declared in
    [flapison.exceptions], which is not among the sources read here; it
    is taken as an exception class of its own that carries its message.
    The other constructors are Python's built-in exceptions and
    marshmallow's [RegistryError]. [RecursionError] is what the bound on
    the recursion of [compute_schema] raises; the bound is never reached
    ([compute_schema_no_RecursionError]). *)
Inductive exn : Type :=
  | InvalidInclude (msg : string)
  | AttributeError
  | KeyError (key : string)
  | IndexError
  | RecursionError
  | RegistryError (classname : string)
  | Exception (msg : string).

Inductive result (A : Type) : Type :=
  | Ok (a : A)
  | Raise (e : exn).

Arguments Ok {A} a.
Arguments Raise {A} e.

(** Sequencing stops at the first exception. *)
#[export] Instance result_ret : MRet result := fun A a => Ok a.
#[export] Instance result_bind : MBind result := fun A B k r =>
  match r with
  | Ok a => k a
  | Raise e => Raise e
  end.

Definition is_InvalidInclude {A} (r : result A) : bool :=
  match r with
  | Raise (InvalidInclude _) => true
  | _ => false
  end.

Definition raises {A} (r : result A) : bool :=
  match r with
  | Raise _ => true
  | Ok _ => false
  end.

(** ** Strings: [str.split], [str.join] and [in] for the separator "." *)

Definition dot : ascii := "."%char.

(** [s.split(".")]: never empty; the empty string splits to [[""]]. *)
Fixpoint split (s : string) : list string :=
  match s with
  | EmptyString => [EmptyString]
  | String c s' =>
      if Ascii.eqb c dot then EmptyString :: split s'
      else match split s' with
           | seg :: segs => String c seg :: segs
           | [] => [String c EmptyString]
           end
  end.

(** [".".join(l)]. *)
Definition join (l : list string) : string := String.concat "." l.

(** ["." in s]. *)
Fixpoint has_dot (s : string) : bool :=
  match s with
  | EmptyString => false
  | String c s' => Ascii.eqb c dot || has_dot s'
  end.

(** [path.split(".")[0]]. *)
Definition first_segment (path : string) : string := hd "" (split path).

(** [".".join(path.split(".")[1:])]. *)
Definition rest_of_path (path : string) : string := join (tl (split path)).

(** ** The object model of marshmallow and marshmallow_jsonapi *)

(** The value stored under the "context" key is opaque to this module. *)
Definition Context : Type := list (string * string).

(** A keyword-argument dictionary. A key that is absent is [None]; a key
    bound to Python's [None] is [Some None]. *)
Record Kwargs : Type := mkKwargs {
  kw_include_data : option (list string);
  kw_only : option (option (list string));
  kw_exclude : option (option (list string));
  kw_many : option bool;
  kw_context : option Context
}.

(** [{}] *)
Definition empty_kwargs : Kwargs := mkKwargs None None None None None.

(** [kwargs.get("only")], [kwargs.get("exclude")]. *)
Definition get_only (kw : Kwargs) : option (list string) := mjoin (kw_only kw).
Definition get_exclude (kw : Kwargs) : option (list string) := mjoin (kw_exclude kw).

Definition set_include_data (v : list string) (kw : Kwargs) : Kwargs :=
  mkKwargs (Some v) (kw_only kw) (kw_exclude kw) (kw_many kw) (kw_context kw).
Definition set_only (v : option (list string)) (kw : Kwargs) : Kwargs :=
  mkKwargs (kw_include_data kw) (Some v) (kw_exclude kw) (kw_many kw) (kw_context kw).
Definition set_exclude (v : option (list string)) (kw : Kwargs) : Kwargs :=
  mkKwargs (kw_include_data kw) (kw_only kw) (Some v) (kw_many kw) (kw_context kw).
Definition set_many (v : bool) (kw : Kwargs) : Kwargs :=
  mkKwargs (kw_include_data kw) (kw_only kw) (kw_exclude kw) (Some v) (kw_context kw).
Definition set_context (v : Context) (kw : Kwargs) : Kwargs :=
  mkKwargs (kw_include_data kw) (kw_only kw) (kw_exclude kw) (kw_many kw) (Some v).

(** Schema classes, their fields, and schema instances. A class has its
    [__name__], its [Meta.type_] ([None] when the attribute is missing, as
    for a plain marshmallow schema) and its [_declared_fields]. A field
    has its [attribute] and, when it defines them, [only] and [exclude]
    (the outer [None] is [hasattr] answering [False]). A [Relationship]
    stores in [_Relationship__schema] nothing, a class, an instance, or a
    registry name. An instance keeps the keyword arguments it was built
    from and its own [declared_fields]. *)
Inductive SchemaClass : Type :=
  mkSchemaClass (__name__ : string) (type_ : option string)
                (_declared_fields : list (string * Field))
with Field : Type :=
  mkField (kind : FieldKind) (attribute : option string)
          (only exclude : option (option (list string)))
with FieldKind : Type :=
  | Plain
  | List (inner : Field)
  | Nested
  | Relationship (schema : SchemaRef)
with SchemaRef : Type :=
  | NoSchema
  | ByClass (cls : SchemaClass)
  | ByInstance (inst : Schema)
  | ByName (classname : string)
with Schema : Type :=
  mkSchema (__class__ : SchemaClass) (kwargs : Kwargs)
           (declared_fields : list (string * Field)).

Definition __name__ (c : SchemaClass) : string :=
  let '(mkSchemaClass n _ _) := c in n.
Definition type_ (c : SchemaClass) : option string :=
  let '(mkSchemaClass _ t _) := c in t.
Definition _declared_fields (c : SchemaClass) : list (string * Field) :=
  let '(mkSchemaClass _ _ d) := c in d.

Definition kind (f : Field) : FieldKind := let '(mkField k _ _ _) := f in k.
Definition attribute (f : Field) : option string := let '(mkField _ a _ _) := f in a.
Definition field_only (f : Field) : option (option (list string)) :=
  let '(mkField _ _ o _) := f in o.
Definition field_exclude (f : Field) : option (option (list string)) :=
  let '(mkField _ _ _ e) := f in e.

Definition __class__ (s : Schema) : SchemaClass := let '(mkSchema c _ _) := s in c.
Definition kwargs (s : Schema) : Kwargs := let '(mkSchema _ k _) := s in k.
Definition declared_fields (s : Schema) : list (string * Field) :=
  let '(mkSchema _ _ d) := s in d.

(** [isinstance(f, Relationship)], [isinstance(f, Nested)], and
    [isinstance(f, List) and isinstance(f.inner, Nested)]. *)
Definition is_Relationship (f : Field) : bool :=
  match kind f with Relationship _ => true | _ => false end.
Definition is_Nested (f : Field) : bool :=
  match kind f with Nested => true | _ => false end.
Definition is_List_of_Nested (f : Field) : bool :=
  match kind f with List inner => is_Nested inner | _ => false end.

(** [f.__dict__["_Relationship__schema"]] *)
Definition _Relationship__schema (f : Field) : option SchemaRef :=
  match kind f with Relationship r => Some r | _ => None end.

(** [f.__dict__["_Relationship__schema"] = r] *)
Definition set_Relationship__schema (r : SchemaRef) (f : Field) : Field :=
  let '(mkField _ a o e) := f in mkField (Relationship r) a o e.

(** ** Ordered dictionaries *)

(** [d.get(k)] *)
Fixpoint dict_get {A} (k : string) (d : list (string * A)) : option A :=
  match d with
  | [] => None
  | (k', v) :: d' => if String.eqb k k' then Some v else dict_get k d'
  end.

(** [d[k] = v] for a key that is already bound: the binding keeps its
    place. *)
Fixpoint dict_set {A} (k : string) (v : A) (d : list (string * A)) : list (string * A) :=
  match d with
  | [] => [(k, v)]
  | (k', v') :: d' =>
      if String.eqb k k' then (k, v) :: d' else (k', v') :: dict_set k v d'
  end.

(** [d.keys()] *)
Definition keys {A} (d : list (string * A)) : list string := map fst d.

(** [a_list or None] *)
Definition or_None {A} (l : list A) : option (list A) :=
  match l with [] => None | _ => Some l end.

(** ** The class registry and the query string *)

(** [marshmallow.class_registry._registry]: class names (short and
    module-qualified) bound to lists of classes. *)
Definition Registry : Type := list (string * list SchemaClass).

(** [class_registry.get_class(classname)], from marshmallow: the name must
    be registered, and for exactly one class. *)
Definition get_class (registry : Registry) (classname : string) : result SchemaClass :=
  match dict_get classname registry with
  | None => Raise (RegistryError classname)
  | Some [] => Raise IndexError
  | Some [cls] => Ok cls
  | Some (_ :: _ :: _) => Raise (RegistryError classname)
  end.

(** Modelled from the spec: [QueryStringManager] is declared in
    [flapison.querystring], which is not among the sources read here.
    This module reads [qs.fields] only: the sparse fieldsets, the
    client-requested names of the fields to serialize, by resource
    type. *)
Record QueryStringManager : Type := mkQS {
  fields : gmap string (list string)
}.

(** ** get_model_field *)

Definition get_model_field (schema : SchemaClass) (field : string) : result string :=
  match dict_get field (_declared_fields schema) with
  | None => Raise (Exception (__name__ schema ++ " has no attribute " ++ field))
  | Some f =>
      match attribute f with
      | Some a => Ok a
      | None => Ok field
      end
  end.

(** What [get_model_field] answers for a declared field. *)
Definition model_of (schema : SchemaClass) (key : string) : string :=
  match dict_get key (_declared_fields schema) with
  | Some f => default key (attribute f)
  | None => key
  end.

(** ** get_nested_fields, get_relationships, get_related_schema *)

Definition get_nested_fields (schema : SchemaClass) (model_field : bool)
  : result (list string) :=
  let nested_fields :=
    keys (filter (λ kv, is_List_of_Nested kv.2 || is_Nested kv.2)
                 (_declared_fields schema)) in
  if model_field then mapM (get_model_field schema) nested_fields
  else Ok nested_fields.

Definition get_relationships (schema : SchemaClass) (model_field : bool)
  : result (list string) :=
  let relationships :=
    keys (filter (λ kv, is_Relationship kv.2) (_declared_fields schema)) in
  if model_field then mapM (get_model_field schema) relationships
  else Ok relationships.

Definition get_related_schema (schema : SchemaClass) (field : string)
  : result SchemaRef :=
  match dict_get field (_declared_fields schema) with
  | None => Raise (KeyError field)
  | Some f =>
      match _Relationship__schema f with
      | None => Raise (KeyError "_Relationship__schema")
      | Some r => Ok r
      end
  end.

(** ** get_schema_from_type *)







(** ** get_schema_field *)

(** The dictionary comprehension: [{key: get_model_field(schema, key)}]. *)
Definition schema_fields_to_model (schema : SchemaClass)
  : result (list (string * string)) :=
  mapM (λ kv, value ← get_model_field schema kv.1; Ok (kv.1, value))
       (_declared_fields schema).

Fixpoint get_schema_field_loop (items : list (string * string)) (field : string)
  : result string :=
  match items with
  | [] => Raise (Exception ("Couldn't find schema field from " ++ field))
  | (key, value) :: items' =>
      if String.eqb value field then Ok key
      else get_schema_field_loop items' field
  end.

Definition get_schema_field (schema : SchemaClass) (field : string) : result string :=
  items ← schema_fields_to_model schema;
  get_schema_field_loop items field.

(** ** compute_schema *)

(** Line 88, the call of [schema_cls] on the unpacked [schema_kwargs],
    which is marshmallow's constructor: the instance
    keeps the keyword arguments and gets its own copy of the class's
    declared fields. *)
Definition construct (schema_cls : SchemaClass) (schema_kwargs : Kwargs) : Schema :=
  mkSchema schema_cls schema_kwargs (_declared_fields schema_cls).

(** The attributes [only], [exclude] and [many] of an instance, as
    marshmallow sets them from the keyword arguments ([exclude] defaults
    to the empty tuple and [many] to [False]). *)
Definition schema_only (s : Schema) : option (list string) := get_only (kwargs s).
Definition schema_exclude (s : Schema) : option (list string) :=
  match kw_exclude (kwargs s) with
  | None => Some []
  | Some e => e
  end.
Definition schema_many (s : Schema) : bool := default false (kw_many (kwargs s)).

(** Lines 30-48, the first loop over [include]: it validates the first
    segment of each path, appends it to [schema_kwargs["include_data"]]
    and files the rest of the path under it in [related_includes]. *)
Fixpoint collect_includes (schema_cls : SchemaClass) (include : list string)
    (schema_kwargs : Kwargs) (related_includes : gmap string (list string))
  : Kwargs * result (gmap string (list string)) :=
  match include with
  | [] => (schema_kwargs, Ok related_includes)
  | include_path :: include' =>
      let field := first_segment include_path in
      match dict_get field (_declared_fields schema_cls) with
      | None =>
          (schema_kwargs,
           Raise (InvalidInclude (__name__ schema_cls ++ " has no attribute " ++ field)))
      | Some f =>
          if negb (is_Relationship f) then
            (schema_kwargs,
             Raise (InvalidInclude
                      (field ++ " is not a relationship attribute of " ++ __name__ schema_cls)))
          else
            let schema_kwargs :=
              set_include_data (default [] (kw_include_data schema_kwargs) ++ [field])%list
                               schema_kwargs in
            let related_includes :=
              match related_includes !! field with
              | None => <[field := []]> related_includes
              | Some _ => related_includes
              end in
            let related_includes :=
              if has_dot include_path then
                <[field := (related_includes !!! field ++ [rest_of_path include_path])%list]>
                  related_includes
              else related_includes in
            collect_includes schema_cls include' schema_kwargs related_includes
      end
  end.

(** Lines 56-62 and 78-84, the loops over [only] and [exclude]: the
    dotted paths, filed by first segment. *)
Fixpoint collect_related (paths : list string) (related : gmap string (list string))
  : gmap string (list string) :=
  match paths with
  | [] => related
  | path :: paths' =>
      if negb (has_dot path) then collect_related paths' related
      else
        let field := first_segment path in
        let related :=
          match related !! field with
          | None => <[field := []]> related
          | Some _ => related
          end in
        collect_related paths'
          (<[field := (related !!! field ++ [rest_of_path path])%list]> related)
  end.

(** Lines 54-62 and 76-84: nothing is filed when [only], or [exclude],
    is [None]. *)
Definition related_paths (paths : option (list string)) : gmap string (list string) :=
  match paths with
  | Some l => collect_related l ∅
  | None => ∅
  end.

(** Lines 65-69, the sparse fieldsets. *)
Definition sparse_fieldsets (schema_cls : SchemaClass) (qs : QueryStringManager)
    (only : option (list string)) : result (option (list string)) :=
  match type_ schema_cls with
  | None => Raise AttributeError
  | Some t =>
      match fields qs !! t with
      | None => Ok only
      | Some requested =>
          let tmp_only : gset string :=
            list_to_set (keys (_declared_fields schema_cls)) ∩ list_to_set requested in
          let tmp_only :=
            match only with
            | Some o => tmp_only ∩ list_to_set o
            | None => tmp_only
            end in
          Ok (Some (elements tmp_only))
      end
  end.

(** Lines 71-73: "id" is appended to [only] when it is missing. *)
Definition ensure_id (only : option (list string)) : option (list string) :=
  match only with
  | Some o => if decide ("id" ∈ o) then Some o else Some (o ++ ["id"])%list
  | None => None
  end.

(** Lines 102-109: the class behind what a relationship stores. An
    instance gives its class, a name is looked up in the registry, and
    [None] stays what it is. *)
Definition resolve (registry : Registry) (related_schema_cls : SchemaRef)
  : result (option SchemaClass) :=
  match related_schema_cls with
  | ByInstance inst => Ok (Some (__class__ inst))
  | ByName classname => cls ← get_class registry classname; Ok (Some cls)
  | ByClass cls => Ok (Some cls)
  | NoSchema => Ok None
  end.

(** Lines 98-105 and 111-127: the keyword arguments of the related
    schema. They start from an empty dictionary, take the caller's
    context, the [only], [exclude] and [many] of a stored instance, the
    [only] and [exclude] of the relationship field when it has them, and
    are then narrowed by the dotted paths of [only] and widened by those
    of [exclude]. *)
Definition related_kwargs (default_kwargs : Kwargs)
    (related_only related_exclude : gmap string (list string))
    (field : string) (relation_field : Field) (related_schema_cls : SchemaRef)
  : Kwargs :=
  let related_schema_kwargs := empty_kwargs in
  let related_schema_kwargs :=
    match kw_context default_kwargs with
    | Some context => set_context context related_schema_kwargs
    | None => related_schema_kwargs
    end in
  let related_schema_kwargs :=
    match related_schema_cls with
    | ByInstance inst =>
        set_many (schema_many inst)
          (set_exclude (schema_exclude inst)
             (set_only (schema_only inst) related_schema_kwargs))
    | _ => related_schema_kwargs
    end in
  let related_schema_kwargs :=
    match field_only relation_field with
    | Some o => set_only o related_schema_kwargs
    | None => related_schema_kwargs
    end in
  let related_schema_kwargs :=
    match field_exclude relation_field with
    | Some e => set_exclude e related_schema_kwargs
    | None => related_schema_kwargs
    end in
  let related_schema_kwargs :=
    match related_only !! field with
    | Some paths =>
        let tmp_only : gset string :=
          match get_only related_schema_kwargs with
          | Some o => list_to_set paths ∩ list_to_set o
          | None => list_to_set paths
          end in
        set_only (Some (elements tmp_only)) related_schema_kwargs
    | None => related_schema_kwargs
    end in
  match related_exclude !! field with
  | Some paths =>
      let tmp_exclude : gset string :=
        match get_exclude related_schema_kwargs with
        | Some e => list_to_set paths ∪ list_to_set e
        | None => list_to_set paths
        end in
      set_exclude (Some (elements tmp_exclude)) related_schema_kwargs
  | None => related_schema_kwargs
  end.

(** The type of [compute_schema] once the registry and the query string
    are fixed: from the class, the caller's dictionary and the include
    list to the dictionary as the call leaves it and the outcome. *)
Definition computation : Type :=
  SchemaClass → Kwargs → option (list string) → Kwargs * result Schema.

(** Lines 93-135, one round of the second loop over [include], on the
    declared fields of the new instance: the related schema of the
    relationship named by the path is computed by [rec], which is
    [compute_schema] itself, and stored in the field. *)
Definition compound_document (rec : computation) (registry : Registry)
    (default_kwargs : Kwargs)
    (related_includes related_only related_exclude : gmap string (list string))
    (include_path : string) (declared : list (string * Field))
  : result (list (string * Field)) :=
  let field := first_segment include_path in
  relation_field ←
    match dict_get field declared with
    | Some f => Ok f
    | None => Raise (KeyError field)
    end;
  related_schema_cls ←
    match _Relationship__schema relation_field with
    | Some r => Ok r
    | None => Raise (KeyError "_Relationship__schema")
    end;
  let related_schema_kwargs :=
    related_kwargs default_kwargs related_only related_exclude
                   field relation_field related_schema_cls in
  related_schema_cls ← resolve registry related_schema_cls;
  sub_includes ←
    match related_includes !! field with
    | Some l => Ok l
    | None => Raise (KeyError field)
    end;
  related_schema ←
    match related_schema_cls with
    | Some cls => (rec cls related_schema_kwargs (or_None sub_includes)).2
    | None => Raise AttributeError
    end;
  Ok (dict_set field
        (set_Relationship__schema (ByInstance related_schema) relation_field)
        declared).

(** Lines 91-135, the second loop over [include]. *)
Fixpoint compound_documents (rec : computation) (registry : Registry)
    (default_kwargs : Kwargs)
    (related_includes related_only related_exclude : gmap string (list string))
    (include : list string) (declared : list (string * Field))
  : result (list (string * Field)) :=
  match include with
  | [] => Ok declared
  | include_path :: include' =>
      declared ←
        compound_document rec registry default_kwargs
          related_includes related_only related_exclude include_path declared;
      compound_documents rec registry default_kwargs
        related_includes related_only related_exclude include' declared
  end.

(** The body of [compute_schema]. [schema_kwargs] is the caller's
    [default_kwargs] under another name, so what is written to it is
    written to the caller's dictionary: the first component of the result
    is that dictionary when the call returns or raises. *)
Definition compute_schema_body (rec : computation) (registry : Registry)
    (qs : QueryStringManager) : computation :=
  λ schema_cls default_kwargs include,
  let schema_kwargs := set_include_data [] default_kwargs in
  let include_list := default [] include in
  match collect_includes schema_cls include_list schema_kwargs ∅ with
  | (schema_kwargs, Raise e) => (schema_kwargs, Raise e)
  | (schema_kwargs, Ok related_includes) =>
      let only := get_only schema_kwargs in
      let related_only := related_paths only in
      match sparse_fieldsets schema_cls qs only with
      | Raise e => (schema_kwargs, Raise e)
      | Ok only =>
          let only := ensure_id only in
          let related_exclude := related_paths (get_exclude schema_kwargs) in
          let schema_kwargs := set_only only schema_kwargs in
          let schema := construct schema_cls schema_kwargs in
          (schema_kwargs,
           declared ←
             compound_documents rec registry schema_kwargs
               related_includes related_only related_exclude
               include_list (declared_fields schema);
           Ok (mkSchema (__class__ schema) (kwargs schema) declared))
      end
  end.

(** The recursion of [compute_schema] descends along the include paths;
    it is bounded here by [fuel], and [RecursionError] is raised when the
    bound is reached. *)
Fixpoint compute_schema_fuel (fuel : nat) (registry : Registry)
    (qs : QueryStringManager) : computation :=
  match fuel with
  | 0 => λ _ default_kwargs _, (default_kwargs, Raise RecursionError)
  | S fuel' => compute_schema_body (compute_schema_fuel fuel' registry qs) registry qs
  end.

(** The longest include path, in characters: every recursive call is on
    strictly shorter paths. *)
Definition longest (include : option (list string)) : nat :=
  list_max (map String.length (default [] include)).

Definition compute_schema (registry : Registry) (schema_cls : SchemaClass)
    (default_kwargs : Kwargs) (qs : QueryStringManager)
    (include : option (list string)) : Kwargs * result Schema :=
  compute_schema_fuel (2 + longest include) registry qs schema_cls default_kwargs include.

(** An include path is accepted by a class when its first segment is one
    of the class's declared fields and that field is a [Relationship]. *)
Definition accepts (schema_cls : SchemaClass) (include_path : string) : bool :=
  match dict_get (first_segment include_path) (_declared_fields schema_cls) with
  | Some f => is_Relationship f
  | None => false
  end.

(** The same in words: a path is rejected when its first segment is not
    a key of the declared fields, or names a field that is not a
    [Relationship]; an include list is accepted when the first segment
    of each of its paths names a declared [Relationship]. *)
Definition rejected (schema_cls : SchemaClass) (include_path : string) : Prop :=
  first_segment include_path ∉ keys (_declared_fields schema_cls)
  ∨ ∃ f, dict_get (first_segment include_path) (_declared_fields schema_cls) = Some f
         ∧ is_Relationship f = false.

Definition accepted (schema_cls : SchemaClass) (include : option (list string)) : Prop :=
  ∀ path, path ∈ default [] include →
    ∃ f, dict_get (first_segment path) (_declared_fields schema_cls) = Some f
         ∧ is_Relationship f = true.

(** The include paths under [field], each without its first segment and
    dot: the rest of every dotted path that starts with [field]. *)
Definition remainders (field : string) (include : list string) : list string :=
  map rest_of_path
      (filter (λ path, has_dot path = true ∧ first_segment path = field) include).

(** The fuel a call needs: one unit for a call without include paths,
    and two more than the longest path otherwise. *)
Definition needs (include : option (list string)) : nat :=
  match include with
  | Some (_ :: _) => 2 + longest include
  | _ => 1
  end.

(** The keyword arguments that reach the constructor at line 88, from
    the caller's dictionary, the include paths and the [only] that the
    sparse fieldsets leave. *)
Definition constructor_kwargs (default_kwargs : Kwargs) (include : option (list string))
    (only : option (list string)) : Kwargs :=
  set_only (ensure_id only)
    (set_include_data (map first_segment (default [] include)) default_kwargs).

(** The sparse fieldset read to the letter: [only] holds exactly the
    declared field names that are requested and, when the caller gave an
    [only] of its own, are in it too. *)
Definition only_is_intersection (schema_cls : SchemaClass) (requested : list string)
    (default_only : option (list string)) (only : list string) : Prop :=
  ∀ x, x ∈ only ↔
       x ∈ keys (_declared_fields schema_cls) ∧ x ∈ requested
       ∧ ∀ d, default_only = Some d → x ∈ d.

(** The exceptions that a round of the second loop raises by itself,
    as opposed to those that come out of the recursive call. *)
Definition is_local (e : exn) : Prop :=
  match e with
  | KeyError _ | AttributeError | RegistryError _ | IndexError => True
  | _ => False
  end.

(** The related class of the relationship [field] of a class: what its
    stored schema resolves to. *)
Definition related_class (registry : Registry) (declared0 : list (string * Field))
    (field : string) (cls : SchemaClass) : Prop :=
  ∃ f0 ref0,
    dict_get field declared0 = Some f0
    ∧ _Relationship__schema f0 = Some ref0
    ∧ resolve registry ref0 = Ok (Some cls).

(** The relationship [field] of an instance has had its schema replaced:
    it stores an instance that [rec] computed for the related class, with
    some keyword arguments, on the include paths filed under [field]. *)
Definition replaced (rec : computation) (registry : Registry)
    (related_includes : gmap string (list string))
    (declared0 declared : list (string * Field)) (field : string) : Prop :=
  ∃ cls sub kw related_schema f,
    related_class registry declared0 field cls
    ∧ related_includes !! field = Some sub
    ∧ (rec cls kw (or_None sub)).2 = Ok related_schema
    ∧ dict_get field declared = Some f
    ∧ _Relationship__schema f = Some (ByInstance related_schema).

(** What the second loop keeps true of the instance's declared fields:
    each is as the class declares it, or has had its schema replaced. *)
Definition loop_invariant (rec : computation) (registry : Registry)
    (related_includes : gmap string (list string))
    (declared0 declared : list (string * Field)) : Prop :=
  ∀ field,
    dict_get field declared = dict_get field declared0
    ∨ replaced rec registry related_includes declared0 declared field.


(** Lines 34-42: the message raised for a rejected include path. *)
Definition include_error (schema_cls : SchemaClass) (include_path : string) : string :=
  match dict_get (first_segment include_path) (_declared_fields schema_cls) with
  | None => __name__ schema_cls ++ " has no attribute " ++ first_segment include_path
  | Some _ =>
      first_segment include_path ++ " is not a relationship attribute of "
      ++ __name__ schema_cls
  end.

(** Two fields that differ at most in the schema that a relationship
    stores. *)
Definition same_but_schema (f f0 : Field) : Prop :=
  attribute f = attribute f0
  ∧ field_only f = field_only f0
  ∧ field_exclude f = field_exclude f0
  ∧ is_Relationship f = is_Relationship f0.

(** ** Sample schemas

    A person owns computers; a computer has an owner, named through the
    registry, and keeps its serial number in the model attribute
    [serial_number]. A tag declares its name only: its "id" is one of
    the [Meta.additional] fields, which are not declared fields. Another
    module has a class of the same name for labels. *)
Module Sample.

Definition plain : Field := mkField Plain None None None.
Definition relationship (r : SchemaRef) : Field :=
  mkField (Relationship r) None None None.

Definition ComputerSchema : SchemaClass :=
  mkSchemaClass "ComputerSchema" (Some "computer")
    [("id", plain);
     ("serial", mkField Plain (Some "serial_number") None None);
     ("owner", relationship (ByName "PersonSchema"))].

Definition PersonSchema : SchemaClass :=
  mkSchemaClass "PersonSchema" (Some "person")
    [("id", plain);
     ("name", plain);
     ("computers", relationship (ByClass ComputerSchema))].

Definition TagSchema : SchemaClass :=
  mkSchemaClass "TagSchema" (Some "tag") [("name", plain)].

Definition ShopTagSchema : SchemaClass :=
  mkSchemaClass "TagSchema" (Some "label") [("id", plain); ("name", plain)].

(** A plain marshmallow schema: its options have no [type_]. *)
Definition PlainSchema : SchemaClass :=
  mkSchemaClass "PlainSchema" None [("name", plain)].

(** Every class is registered under its name and under its full path;
    the two tag classes share the entry of their name. *)
Definition registry : Registry :=
  [("PlainSchema", [PlainSchema]);
   ("app.PlainSchema", [PlainSchema]);
   ("PersonSchema", [PersonSchema]);
   ("app.PersonSchema", [PersonSchema]);
   ("ComputerSchema", [ComputerSchema]);
   ("app.ComputerSchema", [ComputerSchema]);
   ("TagSchema", [TagSchema; ShopTagSchema]);
   ("app.TagSchema", [TagSchema]);
   ("shop.TagSchema", [ShopTagSchema])].

(** No sparse fieldset; one for persons; one for tags. *)
Definition no_fields : QueryStringManager := mkQS ∅.
Definition person_name : QueryStringManager := mkQS {["person" := ["name"]]}.
Definition tag_id : QueryStringManager := mkQS {["tag" := ["id"]]}.

End Sample.

(** An article has an owner, an author whose schema is named but not
    registered, and tags whose relationship stores no schema. *)
Module Blog.

Definition ArticleSchema : SchemaClass :=
  mkSchemaClass "ArticleSchema" (Some "article")
    [("id", Sample.plain);
     ("title", Sample.plain);
     ("owner", Sample.relationship (ByClass Sample.PersonSchema));
     ("author", Sample.relationship (ByName "AuthorSchema"));
     ("tags", Sample.relationship NoSchema)].

(** The keyword arguments of a view: a context, and restrictions that
    reach into the owner's computers. *)
Definition view_kwargs : Kwargs :=
  mkKwargs None (Some (Some ["title"; "owner.name"; "owner.computers.serial"]))
           (Some (Some ["owner.id"])) (Some false) (Some [("user", "ada")]).

End Blog.

(** * Properties *)

(** ** Ordered dictionaries *)

Lemma dict_get_None {A} (k : string) (d : list (string * A)) :
  dict_get k d = None ↔ k ∉ keys d.
Proof.
  induction d as [|[k' v] d IH]; simpl.
  - split; [intros _; apply not_elem_of_nil | done].
  - rewrite not_elem_of_cons. destruct (String.eqb_spec k k') as [->|Hne].
    + split; [done | intros [? _]; done].
    + rewrite IH. tauto.
Qed.

Lemma dict_get_Some_key {A} (k : string) (d : list (string * A)) (v : A) :
  dict_get k d = Some v → k ∈ keys d.
Proof.
  intros Hget. destruct (decide (k ∈ keys d)) as [|Hn]; [done|].
  apply dict_get_None in Hn. congruence.
Qed.

Lemma dict_get_key {A} (k : string) (d : list (string * A)) :
  k ∈ keys d → ∃ v, dict_get k d = Some v.
Proof.
  intros Hin. destruct (dict_get k d) as [v|] eqn:Hget; [by exists v|].
  apply dict_get_None in Hget. done.
Qed.

(** ** get_model_field *)

Lemma get_model_field_declared (schema : SchemaClass) (key : string) :
  key ∈ keys (_declared_fields schema) →
  get_model_field schema key = Ok (model_of schema key).
Proof.
  intros [f Hf]%dict_get_key. unfold get_model_field, model_of.
  rewrite Hf. by destruct (attribute f).
Qed.

Lemma get_model_field_Ok (schema : SchemaClass) (key m : string) :
  get_model_field schema key = Ok m →
  key ∈ keys (_declared_fields schema) ∧ m = model_of schema key.
Proof.
  unfold get_model_field, model_of.
  destruct (dict_get key (_declared_fields schema)) as [f|] eqn:Hf; [|done].
  intros Hm. split; [by eapply dict_get_Some_key|].
  destruct (attribute f); simpl; congruence.
Qed.

(** C6. [get_model_field] raises exactly when the field name is not a key
    of the schema's declared fields; for a declared field it returns the
    field's attribute when that is not [None], and the field name itself
    when it is. *)
Theorem get_model_field_spec (schema : SchemaClass) (field : string) :
  (raises (get_model_field schema field) = true
   ↔ field ∉ keys (_declared_fields schema))
  ∧ ∀ f, dict_get field (_declared_fields schema) = Some f →
         (∀ a, attribute f = Some a → get_model_field schema field = Ok a)
         ∧ (attribute f = None → get_model_field schema field = Ok field).
Proof.
  split.
  - rewrite <- dict_get_None. unfold get_model_field.
    destruct (dict_get field (_declared_fields schema)) as [f|]; simpl.
    + destruct (attribute f); simpl; split; congruence.
    + done.
  - intros f Hf. unfold get_model_field. rewrite Hf.
    split; [intros a Ha | intros Ha]; by rewrite Ha.
Qed.

Lemma get_model_field_spec_witness :
  get_model_field Sample.ComputerSchema "serial" = Ok "serial_number"
  ∧ get_model_field Sample.ComputerSchema "id" = Ok "id".
Proof.
  split.
  - eapply (proj2 (get_model_field_spec Sample.ComputerSchema "serial"));
      reflexivity.
  - eapply (proj2 (get_model_field_spec Sample.ComputerSchema "id"));
      reflexivity.
Defined.

(** ** get_schema_field *)

Lemma mapM_Ok {A B} (f : A → result B) (g : A → B) (l : list A) :
  (∀ x, x ∈ l → f x = Ok (g x)) → mapM f l = Ok (map g l).
Proof.
  induction l as [|x l IH]; intros Hf; simpl; [done|].
  rewrite (Hf x) by apply list_elem_of_here. simpl.
  rewrite IH; [done|]. intros y Hy. apply Hf. by apply list_elem_of_further.
Qed.

Lemma schema_fields_to_model_Ok (schema : SchemaClass) :
  schema_fields_to_model schema
  = Ok (map (λ kv, (kv.1, model_of schema kv.1)) (_declared_fields schema)).
Proof.
  apply mapM_Ok. intros [k v] Hin. simpl.
  rewrite get_model_field_declared; [done|].
  apply list_elem_of_fmap. by exists (k, v).
Qed.

(** The scan returns the first key bound to the value looked for. *)
Lemma get_schema_field_loop_Ok (items : list (string * string)) (field key : string) :
  get_schema_field_loop items field = Ok key ↔
  ∃ before after,
    items = (before ++ (key, field) :: after)%list
    ∧ ∀ kv, kv ∈ before → kv.2 ≠ field.
Proof.
  induction items as [|[k v] items IH]; simpl.
  - split; [done|]. intros (before & after & Heq & _). by destruct before.
  - destruct (String.eqb_spec v field) as [->|Hne].
    + split.
      * intros [= ->]. exists [], items. split; [done|]. by intros kv ?%elem_of_nil.
      * intros (before & after & Heq & Hbefore). destruct before as [|kv before].
        -- by injection Heq as -> _.
        -- injection Heq as <- _. exfalso.
           by apply (Hbefore (k, field)); [apply list_elem_of_here|].
    + rewrite IH. split.
      * intros (before & after & -> & Hbefore). exists ((k, v) :: before), after.
        split; [done|]. intros kv [->|?]%elem_of_cons; [done|by apply Hbefore].
      * intros (before & after & Heq & Hbefore). destruct before as [|kv before].
        -- by injection Heq as -> ->.
        -- injection Heq as <- ->. exists before, after. split; [done|].
           intros kv' ?. apply Hbefore. by apply list_elem_of_further.
Qed.

Lemma get_schema_field_loop_raises (items : list (string * string)) (field : string) :
  raises (get_schema_field_loop items field) = true ↔ ∀ kv, kv ∈ items → kv.2 ≠ field.
Proof.
  induction items as [|[k v] items IH]; simpl.
  - split; [by intros _ kv ?%elem_of_nil | done].
  - destruct (String.eqb_spec v field) as [->|Hne]; simpl.
    + split; [done|]. intros Hall. exfalso.
      by apply (Hall (k, field)); [apply list_elem_of_here|].
    + rewrite IH. split.
      * intros Hall kv [->|?]%elem_of_cons; [done|by apply Hall].
      * intros Hall kv ?. apply Hall. by apply list_elem_of_further.
Qed.

Lemma not_raises_Ok {A} (r : result A) : raises r = false → ∃ a, r = Ok a.
Proof. destruct r as [a|e]; [by exists a | done]. Qed.

Lemma get_schema_field_unfold (schema : SchemaClass) (field : string) :
  get_schema_field schema field
  = get_schema_field_loop
      (map (λ kv, (kv.1, model_of schema kv.1)) (_declared_fields schema)) field.
Proof. unfold get_schema_field. by rewrite schema_fields_to_model_Ok. Qed.

Lemma elem_of_fields_to_model (schema : SchemaClass) (key value : string) :
  (key, value) ∈ map (λ kv : string * Field, (kv.1, model_of schema kv.1))
                     (_declared_fields schema)
  ↔ key ∈ keys (_declared_fields schema) ∧ value = model_of schema key.
Proof.
  unfold keys. rewrite !list_elem_of_fmap. split.
  - intros ([k v] & [= -> ->] & Hin). split; [by exists (k, v)|done].
  - intros [([k v] & -> & Hin) ->]. by exists (k, v).
Qed.

(** C7. For a declared field [f], looking up the schema field of the model
    field of [f] succeeds and gives a declared field with the same model
    field; it gives [f] itself when no two declared fields share a model
    field. A model field that no declared field stands for makes
    [get_schema_field] raise. *)
Theorem get_schema_field_roundtrip (schema : SchemaClass) :
  (∀ f, f ∈ keys (_declared_fields schema) →
     ∃ m k,
       get_model_field schema f = Ok m
       ∧ get_schema_field schema m = Ok k
       ∧ k ∈ keys (_declared_fields schema)
       ∧ get_model_field schema k = Ok m
       ∧ ((∀ k1 k2,
             k1 ∈ keys (_declared_fields schema) →
             k2 ∈ keys (_declared_fields schema) →
             get_model_field schema k1 = get_model_field schema k2 → k1 = k2)
          → k = f))
  ∧ (∀ m, (∀ k, k ∈ keys (_declared_fields schema) → get_model_field schema k ≠ Ok m) →
          raises (get_schema_field schema m) = true).
Proof.
  split.
  - intros f Hf. exists (model_of schema f).
    destruct (raises (get_schema_field schema (model_of schema f))) eqn:Hr.
    + rewrite get_schema_field_unfold in Hr.
      apply get_schema_field_loop_raises with (kv := (f, model_of schema f)) in Hr.
      * done.
      * by apply elem_of_fields_to_model.
    + apply not_raises_Ok in Hr as [k Hk]. exists k.
      assert (k ∈ keys (_declared_fields schema)
              ∧ model_of schema f = model_of schema k) as [Hin Hm].
      { rewrite get_schema_field_unfold in Hk.
        apply get_schema_field_loop_Ok in Hk as (before & after & Heq & _).
        apply elem_of_fields_to_model. rewrite Heq.
        apply elem_of_app. right. apply list_elem_of_here. }
      split; [by apply get_model_field_declared|].
      split; [done|]. split; [done|].
      split; [by rewrite Hm; apply get_model_field_declared|].
      intros Hinj. apply Hinj; [done..|].
      rewrite !get_model_field_declared by done. by rewrite Hm.
  - intros m Hm. rewrite get_schema_field_unfold.
    apply get_schema_field_loop_raises. intros [k v] Hin <-.
    apply elem_of_fields_to_model in Hin as [Hin ->]. simpl in *.
    apply (Hm k Hin). by apply get_model_field_declared.
Qed.

Lemma get_schema_field_roundtrip_witness :
  (∃ m k,
     get_model_field Sample.ComputerSchema "serial" = Ok m
     ∧ get_schema_field Sample.ComputerSchema m = Ok k
     ∧ k ∈ keys (_declared_fields Sample.ComputerSchema)
     ∧ get_model_field Sample.ComputerSchema k = Ok m
     ∧ ((∀ k1 k2,
           k1 ∈ keys (_declared_fields Sample.ComputerSchema) →
           k2 ∈ keys (_declared_fields Sample.ComputerSchema) →
           get_model_field Sample.ComputerSchema k1
           = get_model_field Sample.ComputerSchema k2 → k1 = k2)
        → k = "serial"))
  ∧ raises (get_schema_field Sample.ComputerSchema "serial") = true.
Proof.
  split.
  - apply (proj1 (get_schema_field_roundtrip Sample.ComputerSchema) "serial").
    apply list_elem_of_further, list_elem_of_here.
  - apply (proj2 (get_schema_field_roundtrip Sample.ComputerSchema) "serial").
    intros k Hk. vm_compute in Hk.
    apply elem_of_cons in Hk as [->|Hk]; [vm_compute; congruence|].
    apply elem_of_cons in Hk as [->|Hk]; [vm_compute; congruence|].
    apply list_elem_of_singleton in Hk as ->. vm_compute; congruence.
Defined.

(** ** get_schema_from_type *)






(** ** Splitting and joining paths *)

Lemma split_nonempty (s : string) : split s ≠ [].
Proof.
  induction s as [|c s IH]; simpl; [done|].
  destruct (Ascii.eqb c dot); [done|]. by destruct (split s).
Qed.

Lemma join_split (s : string) : join (split s) = s.
Proof.
  induction s as [|c s IH]; simpl; [done|].
  destruct (Ascii.eqb_spec c dot) as [->|Hc].
  - unfold join in *. destruct (split s) as [|seg segs] eqn:Hs.
    + by destruct (split_nonempty s).
    + by rewrite <- IH.
  - unfold join in *. destruct (split s) as [|seg segs] eqn:Hs.
    + by destruct (split_nonempty s).
    + rewrite <- IH. by destruct segs.
Qed.

Lemma has_dot_split (s : string) : has_dot s = true ↔ tl (split s) ≠ [].
Proof.
  induction s as [|c s IH]; simpl; [done|].
  destruct (Ascii.eqb c dot); simpl.
  - split; [intros _; apply split_nonempty | done].
  - rewrite IH. by destruct (split s).
Qed.

Lemma rest_of_path_shorter (path : string) :
  has_dot path = true → (String.length (rest_of_path path) < String.length path)%nat.
Proof.
  unfold rest_of_path. induction path as [|c path IH]; simpl; [done|].
  destruct (Ascii.eqb c dot); simpl.
  - intros _. rewrite join_split. lia.
  - intros Hdot. specialize (IH Hdot).
    destruct (split path) as [|seg segs]; simpl in *; lia.
Qed.

Lemma first_segment_rest (path : string) :
  has_dot path = true → path = first_segment path ++ "." ++ rest_of_path path.
Proof.
  intros Hdot%has_dot_split. unfold first_segment, rest_of_path.
  rewrite <- (join_split path) at 1. unfold join.
  destruct (split path) as [|seg [|seg' segs]]; done.
Qed.

(** ** The first loop over the include paths *)

Lemma set_include_data_twice (v v' : list string) (kw : Kwargs) :
  set_include_data v (set_include_data v' kw) = set_include_data v kw.
Proof. done. Qed.

Lemma remainders_cons (field path : string) (include : list string) :
  remainders field (path :: include)
  = ((if decide (first_segment path = field) then
        if has_dot path then [rest_of_path path] else []
      else []) ++ remainders field include)%list.
Proof.
  unfold remainders. rewrite filter_cons.
  destruct (has_dot path); repeat case_decide; try done;
    try (by destruct_and?).
  by match goal with H : ¬ _ |- _ => destruct H end.
Qed.

Lemma accepts_true (schema_cls : SchemaClass) (path : string) :
  accepts schema_cls path = true ↔
  ∃ f, dict_get (first_segment path) (_declared_fields schema_cls) = Some f
       ∧ is_Relationship f = true.
Proof.
  unfold accepts.
  destruct (dict_get (first_segment path) (_declared_fields schema_cls)) as [f|].
  - split; [by exists f|]. by intros (? & [= <-] & ?).
  - split; [done|]. by intros (? & ? & _).
Qed.

Lemma accepts_false (schema_cls : SchemaClass) (path : string) :
  accepts schema_cls path = false ↔ rejected schema_cls path.
Proof.
  unfold accepts, rejected. rewrite <- dict_get_None.
  destruct (dict_get (first_segment path) (_declared_fields schema_cls)) as [f|].
  - split; [right; by exists f|]. by intros [?|(? & [= <-] & ?)].
  - split; [by left|done].
Qed.

Lemma accepted_forallb (schema_cls : SchemaClass) (include : option (list string)) :
  accepted schema_cls include ↔
  forallb (accepts schema_cls) (default [] include) = true.
Proof.
  unfold accepted. induction (default [] include) as [|path l IH]; simpl.
  - split; [done|]. by intros _ path ?%elem_of_nil.
  - rewrite andb_true_iff, <- IH, accepts_true. split.
    + intros Hall. split; [apply Hall, list_elem_of_here|].
      intros path' ?. by apply Hall, list_elem_of_further.
    + intros [? ?] path' [->|?]%elem_of_cons; auto.
Qed.

Lemma rejected_forallb (schema_cls : SchemaClass) (include : option (list string)) :
  (∃ path, path ∈ default [] include ∧ rejected schema_cls path) ↔
  forallb (accepts schema_cls) (default [] include) = false.
Proof.
  induction (default [] include) as [|path l IH]; simpl.
  - split; [|done]. by intros (path & ?%elem_of_nil & _).
  - rewrite andb_false_iff, <- IH, accepts_false. split.
    + intros (path' & [->|?]%elem_of_cons & ?); [by left|right; by exists path'].
    + intros [?|(path' & ? & ?)].
      * exists path. split; [apply list_elem_of_here|done].
      * exists path'. split; [by apply list_elem_of_further|done].
Qed.

(** The rejected paths make the loop raise [InvalidInclude]. *)
Lemma collect_includes_rejected (schema_cls : SchemaClass) (include : list string)
    (schema_kwargs : Kwargs) (related_includes : gmap string (list string)) :
  forallb (accepts schema_cls) include = false →
  ∃ kw msg,
    collect_includes schema_cls include schema_kwargs related_includes
    = (kw, Raise (InvalidInclude msg)).
Proof.
  revert schema_kwargs related_includes.
  induction include as [|path include IH]; intros kw ri; simpl; [done|].
  unfold accepts at 1.
  destruct (dict_get (first_segment path) (_declared_fields schema_cls)) as [f|];
    [|by eauto].
  destruct (is_Relationship f); simpl; [|by eauto].
  intros Hrest. apply IH, Hrest.
Qed.

(** On accepted paths the loop appends every first segment to
    [include_data] and files the remainders of the dotted paths. *)
Lemma collect_includes_accepted (schema_cls : SchemaClass) (include : list string)
    (schema_kwargs : Kwargs) (related_includes : gmap string (list string))
    (data : list string) :
  kw_include_data schema_kwargs = Some data →
  forallb (accepts schema_cls) include = true →
  ∃ filed,
    collect_includes schema_cls include schema_kwargs related_includes
    = (set_include_data (data ++ map first_segment include) schema_kwargs, Ok filed)
    ∧ ∀ field,
        filed !! field
        = match related_includes !! field with
          | Some l => Some (l ++ remainders field include)%list
          | None =>
              if decide (field ∈ map first_segment include)
              then Some (remainders field include)
              else None
          end.
Proof.
  revert schema_kwargs related_includes data.
  induction include as [|path include IH]; intros kw ri data Hdata; simpl.
  - intros _. exists ri. split.
    + rewrite app_nil_r. destruct kw; simpl in *; by subst.
    + intros field. destruct (ri !! field) as [l|]; [by rewrite app_nil_r|done].
  - unfold accepts at 1.
    destruct (dict_get (first_segment path) (_declared_fields schema_cls)) as [f|];
      [|done].
    destruct (is_Relationship f); simpl; [|done].
    intros Hrest. rewrite Hdata. simpl.
    set (kw1 := set_include_data (data ++ [first_segment path]) kw).
    set (ri1 := match ri !! first_segment path with
                | Some _ => ri
                | None => <[first_segment path := []]> ri
                end).
    set (ri2 := if has_dot path
                then <[first_segment path :=
                         (ri1 !!! first_segment path ++ [rest_of_path path])%list]> ri1
                else ri1).
    destruct (IH kw1 ri2 (data ++ [first_segment path])%list eq_refl Hrest)
      as (filed & Hrun & Hfiled).
    exists filed. split.
    + rewrite Hrun. unfold kw1. rewrite set_include_data_twice.
      by rewrite <- app_assoc.
    + intros field. rewrite Hfiled, remainders_cons.
      destruct (decide (first_segment path = field)) as [<-|Hne].
      * assert (ri2 !! first_segment path
                = Some (default [] (ri !! first_segment path)
                        ++ (if has_dot path then [rest_of_path path] else []))%list)
          as ->.
        { unfold ri2, ri1.
          destruct (has_dot path), (ri !! first_segment path) as [l|] eqn:Hl;
            simpl; rewrite ?lookup_insert_eq, ?lookup_total_insert_eq,
                     ?app_nil_r; try done.
          by rewrite (lookup_total_correct _ _ _ Hl). }
        destruct (ri !! first_segment path) as [l|]; simpl.
        -- by rewrite app_assoc.
        -- rewrite decide_True by apply list_elem_of_here. done.
      * assert (ri2 !! field = ri !! field) as ->.
        { unfold ri2, ri1.
          destruct (has_dot path), (ri !! first_segment path);
            by rewrite ?lookup_insert_ne. }
        destruct (ri !! field) as [l|]; [done|]. simpl.
        destruct (decide (field ∈ map first_segment include)) as [Hin|Hin].
        -- rewrite decide_True; [done|]. by apply list_elem_of_further.
        -- rewrite decide_False; [done|]. intros [?|?]%elem_of_cons; done.
Qed.

(** ** The second loop over the include paths *)

Lemma dict_get_set_eq {A} (k : string) (v : A) (d : list (string * A)) :
  dict_get k (dict_set k v d) = Some v.
Proof.
  induction d as [|[k' v'] d IH]; simpl.
  - by rewrite String.eqb_refl.
  - destruct (String.eqb_spec k k') as [->|Hne]; simpl.
    + by rewrite String.eqb_refl.
    + by rewrite (proj2 (String.eqb_neq k k') Hne).
Qed.

Lemma dict_get_set_ne {A} (k k' : string) (v : A) (d : list (string * A)) :
  k ≠ k' → dict_get k' (dict_set k v d) = dict_get k' d.
Proof.
  intros Hne. induction d as [|[k'' v''] d IH]; simpl.
  - by rewrite (proj2 (String.eqb_neq k' k)).
  - destruct (String.eqb_spec k k'') as [<-|Hne']; simpl.
    + by rewrite (proj2 (String.eqb_neq k' k)).
    + by rewrite IH.
Qed.

Lemma resolve_Raise_local (registry : Registry) (ref : SchemaRef) (e : exn) :
  resolve registry ref = Raise e → is_local e.
Proof.
  destruct ref as [|cls|inst|name]; simpl; try done.
  unfold get_class. destruct (dict_get name registry) as [[|c [|c' l]]|]; simpl;
    by intros [= <-].
Qed.

Section second_loop.

Variable rec : computation.
Variable registry : Registry.
Variable default_kwargs : Kwargs.
Variables filed related_only related_exclude : gmap string (list string).
Variable declared0 : list (string * Field).

(** What [rec] returns is an instance of the class it was given. *)
Hypothesis rec_class :
  ∀ cls kw include s, (rec cls kw include).2 = Ok s → __class__ s = cls.

#[local] Abbreviation invariant := (loop_invariant rec registry filed declared0).
#[local] Abbreviation round :=
  (compound_document rec registry default_kwargs filed related_only related_exclude).
#[local] Abbreviation rounds :=
  (compound_documents rec registry default_kwargs filed related_only related_exclude).

(** A round raises by itself, or comes down to the recursive call on
    the related class and the paths filed under the field. *)
Lemma compound_document_inv (path : string) (declared : list (string * Field)) :
  invariant declared →
  (∃ e, is_local e ∧ round path declared = Raise e)
  ∨ (∃ f cls sub kw,
       dict_get (first_segment path) declared = Some f
       ∧ related_class registry declared0 (first_segment path) cls
       ∧ filed !! first_segment path = Some sub
       ∧ round path declared
         = related_schema ← (rec cls kw (or_None sub)).2;
           Ok (dict_set (first_segment path)
                 (set_Relationship__schema (ByInstance related_schema) f)
                 declared)).
Proof.
  intros Hinv. unfold compound_document.
  destruct (dict_get (first_segment path) declared) as [f|] eqn:Hf; simpl;
    [|left; eexists; split; [|done]; done].
  destruct (_Relationship__schema f) as [ref|] eqn:Href; simpl;
    [|left; eexists; split; [|done]; done].
  destruct (resolve registry ref) as [[cls|]|e] eqn:Hres; simpl.
  - destruct (filed !! first_segment path) as [sub|] eqn:Hsub; simpl;
      [|left; eexists; split; [|done]; done].
    right. exists f, cls, sub. eexists. split; [done|]. split; [|done].
    destruct (Hinv (first_segment path)) as [Hsame|Hrep].
    + exists f, ref. by rewrite <- Hsame.
    + destruct Hrep as (cls' & sub' & kw' & s' & f' & Hcls & _ & Hrec & Hf' & Href').
      assert (cls = cls') as ->; [|done].
      rewrite Hf in Hf'. injection Hf' as <-.
      rewrite Href in Href'. injection Href' as ->.
      simpl in Hres. injection Hres as <-. by eapply rec_class.
  - left. destruct (filed !! first_segment path); simpl;
      eexists; (split; [|done]); done.
  - left. exists e. split; [by eapply resolve_Raise_local | done].
Qed.

Lemma compound_document_Ok (path : string) (declared declared' : list (string * Field)) :
  invariant declared →
  round path declared = Ok declared' →
  replaced rec registry filed declared0 declared' (first_segment path)
  ∧ ∀ field, field ≠ first_segment path →
             dict_get field declared' = dict_get field declared.
Proof.
  intros Hinv Hround.
  destruct (compound_document_inv path declared Hinv)
    as [(e & _ & Hraise)|(f & cls & sub & kw & Hf & Hcls & Hsub & Hrun)];
    [congruence|].
  rewrite Hrun in Hround.
  destruct (rec cls kw (or_None sub)).2 as [s|] eqn:Hrec; simpl in Hround; [|done].
  injection Hround as <-. split.
  - exists cls, sub, kw, s. eexists. split; [done|]. split; [done|].
    split; [done|]. split; [apply dict_get_set_eq|]. by destruct f.
  - intros field Hne. by apply dict_get_set_ne.
Qed.

Lemma replaced_stays (declared declared' : list (string * Field)) (field : string) :
  dict_get field declared' = dict_get field declared →
  replaced rec registry filed declared0 declared field →
  replaced rec registry filed declared0 declared' field.
Proof.
  intros Hsame (cls & sub & kw & s & f & ? & ? & ? & Hf & ?).
  exists cls, sub, kw, s, f. by rewrite Hsame.
Qed.

(** When the loop ends well, the relationship named by every include
    path has had its schema replaced. *)
Lemma compound_documents_Ok (include : list string)
    (declared declared' : list (string * Field)) :
  invariant declared →
  rounds include declared = Ok declared' →
  invariant declared'
  ∧ (∀ field, replaced rec registry filed declared0 declared field →
              replaced rec registry filed declared0 declared' field)
  ∧ (∀ path, path ∈ include →
             replaced rec registry filed declared0 declared' (first_segment path)).
Proof.
  revert declared. induction include as [|path include IH]; intros declared Hinv; simpl.
  - intros [= <-]. split; [done|]. split; [done|]. by intros path ?%elem_of_nil.
  - destruct (round path declared) as [declared1|] eqn:Hround; simpl; [|done].
    intros Hrounds.
    destruct (compound_document_Ok _ _ _ Hinv Hround) as [Hrep Hothers].
    assert (∀ field, replaced rec registry filed declared0 declared field →
                     replaced rec registry filed declared0 declared1 field) as Hstay.
    { intros field Hfield. destruct (decide (field = first_segment path)) as [->|Hne].
      - done.
      - by apply (replaced_stays declared), Hfield; apply Hothers. }
    assert (invariant declared1) as Hinv1.
    { intros field. destruct (decide (field = first_segment path)) as [->|Hne].
      - by right.
      - destruct (Hinv field) as [Hsame|Hfield].
        + left. by rewrite Hothers.
        + right. by apply Hstay. }
    destruct (IH declared1 Hinv1 Hrounds) as (Hinv' & Hstay' & Hpaths).
    split; [done|]. split; [by intros field ?; apply Hstay', Hstay|].
    intros path' [->|Hin]%elem_of_cons; [by apply Hstay'|by apply Hpaths].
Qed.

(** When the loop raises, the exception is one of its own or comes out
    of the recursive call for one of the include paths. *)
Lemma compound_documents_Raise (include : list string)
    (declared : list (string * Field)) (e : exn) :
  invariant declared →
  rounds include declared = Raise e →
  is_local e
  ∨ ∃ path cls sub kw,
      path ∈ include
      ∧ related_class registry declared0 (first_segment path) cls
      ∧ filed !! first_segment path = Some sub
      ∧ (rec cls kw (or_None sub)).2 = Raise e.
Proof.
  revert declared. induction include as [|path include IH]; intros declared Hinv; simpl;
    [done|].
  destruct (round path declared) as [declared1|e1] eqn:Hround; simpl.
  - intros Hrounds.
    destruct (compound_documents_Ok [path] declared declared1 Hinv) as (Hinv1 & _).
    { simpl. by rewrite Hround. }
    destruct (IH declared1 Hinv1 Hrounds)
      as [?|(path' & cls & sub & kw & Hin & ?)]; [by left|].
    right. exists path', cls, sub, kw. split; [by apply list_elem_of_further|done].
  - intros [= ->].
    destruct (compound_document_inv path declared Hinv)
      as [(e' & Hlocal & Hraise)|(f & cls & sub & kw & Hf & Hcls & Hsub & Hrun)].
    + left. congruence.
    + right. exists path, cls, sub, kw. split; [apply list_elem_of_here|].
      split; [done|]. split; [done|].
      rewrite Hrun in Hround.
      destruct (rec cls kw (or_None sub)).2; simpl in Hround; congruence.
Qed.

End second_loop.

(** ** The body of compute_schema *)

Lemma compound_documents_ext (rec1 rec2 : computation) (registry : Registry)
    (default_kwargs : Kwargs) (filed related_only related_exclude : gmap string (list string))
    (include : list string) (declared : list (string * Field)) :
  (∀ path sub cls kw,
     path ∈ include → filed !! first_segment path = Some sub →
     rec1 cls kw (or_None sub) = rec2 cls kw (or_None sub)) →
  compound_documents rec1 registry default_kwargs filed related_only related_exclude
                     include declared
  = compound_documents rec2 registry default_kwargs filed related_only related_exclude
                       include declared.
Proof.
  revert declared. induction include as [|path include IH]; intros declared Hrec; simpl;
    [done|].
  assert (compound_document rec1 registry default_kwargs filed related_only
            related_exclude path declared
          = compound_document rec2 registry default_kwargs filed related_only
              related_exclude path declared) as ->.
  { unfold compound_document.
    destruct (dict_get (first_segment path) declared) as [f|]; simpl; [|done].
    destruct (_Relationship__schema f) as [ref|]; simpl; [|done].
    destruct (resolve registry ref) as [[cls|]|]; simpl; [|done..].
    destruct (filed !! first_segment path) as [sub|] eqn:Hsub; simpl; [|done].
    by rewrite (Hrec path sub) by (apply list_elem_of_here || done). }
  destruct (compound_document rec2 _ _ _ _ _ _ _); simpl; [|done].
  apply IH. intros path' sub cls kw Hin. apply Hrec. by apply list_elem_of_further.
Qed.

Lemma compute_schema_body_rejected (rec : computation) (registry : Registry)
    (qs : QueryStringManager) (schema_cls : SchemaClass) (default_kwargs : Kwargs)
    (include : option (list string)) :
  forallb (accepts schema_cls) (default [] include) = false →
  ∃ kw msg,
    compute_schema_body rec registry qs schema_cls default_kwargs include
    = (kw, Raise (InvalidInclude msg)).
Proof.
  intros Hrej. unfold compute_schema_body.
  destruct (collect_includes_rejected schema_cls (default [] include)
              (set_include_data [] default_kwargs) ∅ Hrej) as (kw & msg & ->).
  by exists kw, msg.
Qed.

(** Past the first loop, the body comes down to the sparse fieldsets, the
    constructor and the second loop. *)
Lemma compute_schema_body_accepted (rec : computation) (registry : Registry)
    (qs : QueryStringManager) (schema_cls : SchemaClass) (default_kwargs : Kwargs)
    (include : option (list string)) :
  forallb (accepts schema_cls) (default [] include) = true →
  ∃ filed,
    (∀ field,
       filed !! field
       = if decide (field ∈ map first_segment (default [] include))
         then Some (remainders field (default [] include))
         else None)
    ∧ compute_schema_body rec registry qs schema_cls default_kwargs include
      = match sparse_fieldsets schema_cls qs (get_only default_kwargs) with
        | Raise e =>
            (set_include_data (map first_segment (default [] include)) default_kwargs,
             Raise e)
        | Ok only =>
            let schema_kwargs := constructor_kwargs default_kwargs include only in
            (schema_kwargs,
             declared ←
               compound_documents rec registry schema_kwargs filed
                 (related_paths (get_only default_kwargs))
                 (related_paths (get_exclude default_kwargs))
                 (default [] include) (_declared_fields schema_cls);
             Ok (mkSchema schema_cls schema_kwargs declared))
        end.
Proof.
  intros Hacc. unfold compute_schema_body.
  destruct (collect_includes_accepted schema_cls (default [] include)
              (set_include_data [] default_kwargs) ∅ [] eq_refl Hacc)
    as (filed & -> & Hfiled).
  exists filed. split.
  - intros field. rewrite Hfiled. by rewrite lookup_empty.
  - done.
Qed.

(** What a call that returns has gone through. *)
Lemma compute_schema_body_Ok (rec : computation) (registry : Registry)
    (qs : QueryStringManager) (schema_cls : SchemaClass) (default_kwargs : Kwargs)
    (include : option (list string)) (kw : Kwargs) (s : Schema) :
  compute_schema_body rec registry qs schema_cls default_kwargs include = (kw, Ok s) →
  forallb (accepts schema_cls) (default [] include) = true
  ∧ ∃ only filed declared,
      sparse_fieldsets schema_cls qs (get_only default_kwargs) = Ok only
      ∧ kw = constructor_kwargs default_kwargs include only
      ∧ s = mkSchema schema_cls kw declared
      ∧ (∀ field,
           filed !! field
           = if decide (field ∈ map first_segment (default [] include))
             then Some (remainders field (default [] include))
             else None)
      ∧ compound_documents rec registry kw filed
          (related_paths (get_only default_kwargs))
          (related_paths (get_exclude default_kwargs))
          (default [] include) (_declared_fields schema_cls)
        = Ok declared.
Proof.
  intros Hrun.
  destruct (forallb (accepts schema_cls) (default [] include)) eqn:Hacc.
  - split; [done|].
    destruct (compute_schema_body_accepted rec registry qs schema_cls default_kwargs
                include Hacc) as (filed & Hfiled & Hbody).
    rewrite Hbody in Hrun.
    destruct (sparse_fieldsets schema_cls qs (get_only default_kwargs)) as [only|];
      [|done].
    simpl in Hrun. injection Hrun as <- Hrun.
    destruct (compound_documents rec _ _ _ _ _ _ _) as [declared|] eqn:Hloop;
      simpl in Hrun; [|done].
    injection Hrun as <-. by exists only, filed, declared.
  - destruct (compute_schema_body_rejected rec registry qs schema_cls default_kwargs
                include Hacc) as (kw' & msg & Hbody).
    congruence.
Qed.

(** ** The recursion of compute_schema *)

Lemma length_le_longest (include : list string) (path : string) :
  path ∈ include → (String.length path ≤ longest (Some include))%nat.
Proof.
  intros Hin. unfold longest. simpl.
  assert (Forall (λ k, k ≤ list_max (map String.length include))%nat
                 (map String.length include)) as Hall by by apply list_max_le.
  rewrite Forall_forall in Hall. apply Hall.
  apply list_elem_of_fmap. by exists path.
Qed.

Lemma elem_of_remainders (field rest : string) (include : list string) :
  rest ∈ remainders field include ↔
  ∃ path, path ∈ include ∧ has_dot path = true
          ∧ first_segment path = field ∧ rest = rest_of_path path.
Proof.
  unfold remainders. rewrite list_elem_of_fmap. split.
  - intros (path & -> & [[? ?] ?]%list_elem_of_filter). by exists path.
  - intros (path & ? & ? & ? & ->). exists path. split; [done|].
    by apply list_elem_of_filter.
Qed.

(** The paths filed under a field need less fuel than the paths they
    come from. *)
Lemma needs_remainders (field : string) (include : list string) :
  include ≠ [] → (needs (or_None (remainders field include)) < needs (Some include))%nat.
Proof.
  intros Hne. destruct include as [|path0 include0] eqn:Hinclude; [done|].
  rewrite <- Hinclude in *. assert (needs (Some include) = 2 + longest (Some include))%nat as ->
    by by rewrite Hinclude.
  destruct (remainders field include) as [|rest rests] eqn:Hrem; simpl; [lia|].
  rewrite <- Hrem. unfold longest at 1. simpl.
  enough (list_max (map String.length (remainders field include))
          < longest (Some include))%nat by lia.
  apply list_max_lt; [by rewrite Hrem|].
  apply Forall_forall. intros k (rest' & -> & Hin)%list_elem_of_fmap.
  apply elem_of_remainders in Hin as (path & Hin & Hdot & _ & ->).
  pose proof (rest_of_path_shorter path Hdot).
  pose proof (length_le_longest include path Hin). lia.
Qed.

Lemma needs_le_longest (include : option (list string)) :
  (needs include ≤ 2 + longest include)%nat.
Proof. destruct include as [[|? ?]|]; simpl; lia. Qed.

Lemma compute_schema_body_ext (rec1 rec2 : computation) (registry : Registry)
    (qs : QueryStringManager) (schema_cls : SchemaClass) (default_kwargs : Kwargs)
    (include : option (list string)) :
  (∀ path cls kw,
     path ∈ default [] include →
     rec1 cls kw (or_None (remainders (first_segment path) (default [] include)))
     = rec2 cls kw (or_None (remainders (first_segment path) (default [] include)))) →
  compute_schema_body rec1 registry qs schema_cls default_kwargs include
  = compute_schema_body rec2 registry qs schema_cls default_kwargs include.
Proof.
  intros Hrec.
  destruct (forallb (accepts schema_cls) (default [] include)) eqn:Hacc.
  - destruct (compute_schema_body_accepted rec1 registry qs schema_cls default_kwargs
                include Hacc) as (filed1 & Hfiled1 & ->).
    destruct (compute_schema_body_accepted rec2 registry qs schema_cls default_kwargs
                include Hacc) as (filed2 & Hfiled2 & ->).
    assert (filed2 = filed1) as ->.
    { apply map_eq. intros field. by rewrite Hfiled1, Hfiled2. }
    destruct (sparse_fieldsets schema_cls qs (get_only default_kwargs)); [|done].
    simpl. f_equal. f_equal. apply compound_documents_ext.
    intros path sub cls kw Hin Hsub. rewrite Hfiled1 in Hsub.
    rewrite decide_True in Hsub by (apply list_elem_of_fmap; by exists path).
    injection Hsub as <-. by apply Hrec.
  - unfold compute_schema_body.
    destruct (collect_includes_rejected schema_cls (default [] include)
                (set_include_data [] default_kwargs) ∅ Hacc) as (kw & msg & ->).
    done.
Qed.

Lemma compute_schema_fuel_S (registry : Registry) (qs : QueryStringManager) (n : nat) :
  compute_schema_fuel (S n) registry qs
  = compute_schema_body (compute_schema_fuel n registry qs) registry qs.
Proof. done. Qed.

(** The result does not depend on the fuel, once there is enough. *)
Lemma compute_schema_fuel_stable (registry : Registry) (qs : QueryStringManager)
    (n m : nat) (schema_cls : SchemaClass) (default_kwargs : Kwargs)
    (include : option (list string)) :
  (needs include ≤ n)%nat → (needs include ≤ m)%nat →
  compute_schema_fuel n registry qs schema_cls default_kwargs include
  = compute_schema_fuel m registry qs schema_cls default_kwargs include.
Proof.
  revert m schema_cls default_kwargs include.
  induction n as [|n IH]; intros m cls kw include Hn Hm.
  - destruct include as [[|? ?]|]; simpl in Hn; lia.
  - destruct m as [|m]; [destruct include as [[|? ?]|]; simpl in Hm; lia|].
    simpl. apply compute_schema_body_ext. intros path cls' kw' Hin.
    destruct include as [include|]; simpl in Hin; [|by apply elem_of_nil in Hin].
    assert (include ≠ []) as Hne by (intros ->; by apply elem_of_nil in Hin).
    pose proof (needs_remainders (first_segment path) include Hne).
    apply IH; simpl in *; lia.
Qed.

Lemma compute_schema_fuel_class (registry : Registry) (qs : QueryStringManager)
    (n : nat) (schema_cls : SchemaClass) (default_kwargs : Kwargs)
    (include : option (list string)) (s : Schema) :
  (compute_schema_fuel n registry qs schema_cls default_kwargs include).2 = Ok s →
  __class__ s = schema_cls.
Proof.
  destruct n as [|n]; simpl; [done|].
  destruct (compute_schema_body _ registry qs schema_cls default_kwargs include)
    as [kw r] eqn:Hbody.
  simpl. intros ->.
  apply compute_schema_body_Ok in Hbody as (_ & only & filed & declared & _ & _ & -> & _).
  done.
Qed.

(** [compute_schema] is the function that the source defines by
    recursion: its body, calling itself. *)
Lemma compute_schema_unfold (registry : Registry) (schema_cls : SchemaClass)
    (default_kwargs : Kwargs) (qs : QueryStringManager) (include : option (list string)) :
  compute_schema registry schema_cls default_kwargs qs include
  = compute_schema_body (λ cls kw sub, compute_schema registry cls kw qs sub)
      registry qs schema_cls default_kwargs include.
Proof.
  unfold compute_schema at 1.
  change (2 + longest include) with (S (S (longest include))).
  rewrite compute_schema_fuel_S. apply compute_schema_body_ext.
  intros path cls kw Hin. unfold compute_schema.
  destruct include as [include|]; simpl in Hin; [|by apply elem_of_nil in Hin].
  assert (include ≠ []) as Hne by (intros ->; by apply elem_of_nil in Hin).
  pose proof (needs_remainders (first_segment path) include Hne).
  pose proof (needs_le_longest (or_None (remainders (first_segment path) include))).
  pose proof (needs_le_longest (Some include)).
  apply compute_schema_fuel_stable; simpl in *; lia.
Qed.

Lemma compute_schema_class (registry : Registry) (schema_cls : SchemaClass)
    (default_kwargs : Kwargs) (qs : QueryStringManager) (include : option (list string))
    (s : Schema) :
  (compute_schema registry schema_cls default_kwargs qs include).2 = Ok s →
  __class__ s = schema_cls.
Proof. apply compute_schema_fuel_class. Qed.

Lemma loop_invariant_start (rec : computation) (registry : Registry)
    (filed : gmap string (list string)) (declared0 : list (string * Field)) :
  loop_invariant rec registry filed declared0 declared0.
Proof. intros field. by left. Qed.

Lemma sparse_fieldsets_Raise (schema_cls : SchemaClass) (qs : QueryStringManager)
    (only : option (list string)) (e : exn) :
  sparse_fieldsets schema_cls qs only = Raise e → e = AttributeError ∧ type_ schema_cls = None.
Proof.
  unfold sparse_fieldsets. destruct (type_ schema_cls) as [t|]; [|by intros [= <-]].
  by destruct (fields qs !! t).
Qed.

(** The fuel that [compute_schema] gives itself is enough: the bound on
    the recursion is never reached. *)
Lemma compute_schema_fuel_enough (registry : Registry) (qs : QueryStringManager)
    (n : nat) (schema_cls : SchemaClass) (default_kwargs : Kwargs)
    (include : option (list string)) :
  (needs include ≤ n)%nat →
  (compute_schema_fuel n registry qs schema_cls default_kwargs include).2
  ≠ Raise RecursionError.
Proof.
  revert schema_cls default_kwargs include.
  induction n as [|n IH]; intros cls kw include Hn.
  - destruct include as [[|? ?]|]; simpl in Hn; lia.
  - simpl. destruct (forallb (accepts cls) (default [] include)) eqn:Hacc.
    + destruct (compute_schema_body_accepted (compute_schema_fuel n registry qs)
                  registry qs cls kw include Hacc) as (filed & Hfiled & ->).
      destruct (sparse_fieldsets cls qs (get_only kw)) as [only|e] eqn:Hsparse; simpl.
      * destruct (compound_documents _ _ _ _ _ _ _ _) as [declared|e] eqn:Hloop;
          simpl; [done|].
        intros [= ->].
        apply compound_documents_Raise with (declared0 := _declared_fields cls) in Hloop
          as [Hlocal|(path & cls' & sub & kw' & Hin & _ & Hsub & Hrec)].
        -- done.
        -- rewrite Hfiled in Hsub.
           rewrite decide_True in Hsub by (apply list_elem_of_fmap; by exists path).
           injection Hsub as <-. revert Hrec. apply IH.
           destruct include as [include|]; simpl in Hin; [|by apply elem_of_nil in Hin].
           assert (include ≠ []) as Hne by (intros ->; by apply elem_of_nil in Hin).
           pose proof (needs_remainders (first_segment path) include Hne).
           simpl in *; lia.
        -- intros ? ? ? ?. apply compute_schema_fuel_class.
        -- apply loop_invariant_start.
      * apply sparse_fieldsets_Raise in Hsparse as [-> _]. done.
    + destruct (compute_schema_body_rejected (compute_schema_fuel n registry qs)
                  registry qs cls kw include Hacc) as (kw' & msg & ->).
      done.
Qed.

Lemma compute_schema_no_RecursionError (registry : Registry) (schema_cls : SchemaClass)
    (default_kwargs : Kwargs) (qs : QueryStringManager) (include : option (list string)) :
  (compute_schema registry schema_cls default_kwargs qs include).2 ≠ Raise RecursionError.
Proof. apply compute_schema_fuel_enough, needs_le_longest. Qed.

(** ** What compute_schema returns *)

(** The call that returns has accepted every include path, built the
    instance on [constructor_kwargs], and replaced the schema of the
    relationship named by every path. *)
Lemma compute_schema_Ok (registry : Registry) (schema_cls : SchemaClass)
    (default_kwargs : Kwargs) (qs : QueryStringManager) (include : option (list string))
    (kw : Kwargs) (s : Schema) :
  compute_schema registry schema_cls default_kwargs qs include = (kw, Ok s) →
  forallb (accepts schema_cls) (default [] include) = true
  ∧ ∃ only filed declared,
      sparse_fieldsets schema_cls qs (get_only default_kwargs) = Ok only
      ∧ kw = constructor_kwargs default_kwargs include only
      ∧ s = mkSchema schema_cls kw declared
      ∧ (∀ field,
           filed !! field
           = if decide (field ∈ map first_segment (default [] include))
             then Some (remainders field (default [] include))
             else None)
      ∧ ∀ path, path ∈ default [] include →
          replaced (λ cls kw sub, compute_schema registry cls kw qs sub) registry
            filed (_declared_fields schema_cls) declared (first_segment path).
Proof.
  rewrite compute_schema_unfold.
  intros (Hacc & only & filed & declared & Hsparse & -> & -> & Hfiled & Hloop)
           %compute_schema_body_Ok.
  split; [done|]. exists only, filed, declared.
  split; [done|]. split; [done|]. split; [done|]. split; [done|].
  eapply compound_documents_Ok in Hloop as (_ & _ & Hpaths); [done| |].
  - intros cls kw sub s. apply compute_schema_class.
  - apply loop_invariant_start.
Qed.

Lemma elem_of_ensure_id (only : option (list string)) (o : list string) (x : string) :
  ensure_id only = Some o →
  x ∈ o ↔ x = "id" ∨ ∃ o', only = Some o' ∧ x ∈ o'.
Proof.
  unfold ensure_id. destruct only as [o'|]; [|done].
  case_decide as Hid; intros [= <-].
  - split; [intros ?; right; by exists o'|].
    intros [->|(? & [= <-] & ?)]; done.
  - rewrite elem_of_app, list_elem_of_singleton. split.
    + intros [?|?]; [right; by exists o'|by left].
    + intros [?|(? & [= <-] & ?)]; [by right|by left].
Qed.

(** C3. For an accepted include list, the dictionary that the
    constructor is called on, and so the schema that [compute_schema]
    returns, has [include_data] holding the first segment of each
    include path, in the order of the list; it is the empty tuple when
    [include] is [None] or empty. *)
Theorem include_data_first_segments (registry : Registry) (schema_cls : SchemaClass)
    (default_kwargs : Kwargs) (qs : QueryStringManager) (include : option (list string)) :
  accepted schema_cls include →
  kw_include_data (compute_schema registry schema_cls default_kwargs qs include).1
  = Some (map first_segment (default [] include))
  ∧ ∀ kw s,
      compute_schema registry schema_cls default_kwargs qs include = (kw, Ok s) →
      kwargs s = kw
      ∧ kw_include_data (kwargs s) = Some (map first_segment (default [] include))
      ∧ ((include = None ∨ include = Some []) → kw_include_data (kwargs s) = Some []).
Proof.
  intros Hacc%accepted_forallb. split.
  - rewrite compute_schema_unfold.
    destruct (compute_schema_body_accepted
                (λ cls kw sub, compute_schema registry cls kw qs sub)
                registry qs schema_cls default_kwargs include Hacc)
      as (filed & _ & ->).
    by destruct (sparse_fieldsets schema_cls qs (get_only default_kwargs)).
  - intros kw s (_ & only & filed & declared & _ & -> & -> & _)%compute_schema_Ok.
    split; [done|]. split; [done|]. by intros [-> | ->].
Qed.

Lemma include_data_first_segments_witness :
  kw_include_data
    (compute_schema Sample.registry Sample.PersonSchema empty_kwargs Sample.no_fields
                    (Some ["computers.owner"; "computers"])).1
  = Some ["computers"; "computers"]
  ∧ ∀ kw s,
      compute_schema Sample.registry Sample.PersonSchema empty_kwargs Sample.no_fields
                     (Some ["computers.owner"; "computers"]) = (kw, Ok s) →
      kwargs s = kw
      ∧ kw_include_data (kwargs s) = Some ["computers"; "computers"]
      ∧ ((Some ["computers.owner"; "computers"] = None
          ∨ Some ["computers.owner"; "computers"] = Some []) →
         kw_include_data (kwargs s) = Some []).
Proof.
  apply (include_data_first_segments Sample.registry Sample.PersonSchema empty_kwargs
           Sample.no_fields (Some ["computers.owner"; "computers"])).
  apply accepted_forallb. reflexivity.
Defined.



Lemma sparse_fieldsets_requested (schema_cls : SchemaClass) (qs : QueryStringManager)
    (only : option (list string)) (t : string) (requested : list string) :
  type_ schema_cls = Some t →
  fields qs !! t = Some requested →
  ∃ o,
    sparse_fieldsets schema_cls qs only = Ok (Some o)
    ∧ only_is_intersection schema_cls requested only o.
Proof.
  intros Ht Hrequested. unfold sparse_fieldsets. rewrite Ht, Hrequested.
  eexists. split; [done|]. intros x. rewrite elem_of_elements.
  destruct only as [d|].
  - rewrite !elem_of_intersection, !elem_of_list_to_set. split.
    + intros [[? ?] ?]. split; [done|]. split; [done|]. by intros ? [= <-].
    + intros (? & ? & Hd). split; [done|]. by apply Hd.
  - rewrite !elem_of_intersection, !elem_of_list_to_set. split.
    + intros [? ?]. split; [done|]. split; done.
    + by intros (? & ? & _).
Qed.

(** C2, as it stands, fails: with the sparse fieldset "name" for persons
    the constructor receives "name" and "id", and "id" is not in the
    intersection of the declared fields with the fieldset. *)
Lemma only_not_the_intersection :
  ∃ s,
    (compute_schema Sample.registry Sample.PersonSchema empty_kwargs
                    Sample.person_name None).2 = Ok s
    ∧ type_ Sample.PersonSchema = Some "person"
    ∧ fields Sample.person_name !! "person" = Some ["name"]
    ∧ kw_only (kwargs s) = Some (Some ["name"; "id"])
    ∧ (¬ only_is_intersection Sample.PersonSchema ["name"] (get_only empty_kwargs)
            ["name"; "id"]).
Proof.
  eexists. split; [vm_compute; reflexivity|].
  split; [done|]. split; [done|]. split; [done|].
  intros Hclaim. destruct (proj1 (Hclaim "id")) as (_ & Hid & _).
  - apply list_elem_of_further, list_elem_of_here.
  - apply list_elem_of_singleton in Hid. done.
Qed.

(** C2, amended. When the class's [Meta.type_] is a key of [qs.fields],
    the [only] that the constructor receives holds the declared field
    names that are in the requested fieldset and, when the caller's
    [only] is not [None], in it as well, and besides them "id". *)
Theorem only_is_intersection_with_id (registry : Registry) (schema_cls : SchemaClass)
    (default_kwargs : Kwargs) (qs : QueryStringManager) (include : option (list string))
    (kw : Kwargs) (s : Schema) (t : string) (requested : list string) :
  type_ schema_cls = Some t →
  fields qs !! t = Some requested →
  compute_schema registry schema_cls default_kwargs qs include = (kw, Ok s) →
  ∃ o,
    kw_only (kwargs s) = Some (Some o)
    ∧ ∀ x, x ∈ o ↔
           x = "id"
           ∨ (x ∈ keys (_declared_fields schema_cls) ∧ x ∈ requested
              ∧ ∀ d, get_only default_kwargs = Some d → x ∈ d).
Proof.
  intros Ht Hrequested
    (_ & only & filed & declared & Hsparse & -> & -> & _)%compute_schema_Ok.
  destruct (sparse_fieldsets_requested schema_cls qs (get_only default_kwargs)
              t requested Ht Hrequested) as (o' & Ho' & Hinter).
  rewrite Hsparse in Ho'. injection Ho' as ->.
  assert (kw_only (kwargs (mkSchema schema_cls
                             (constructor_kwargs default_kwargs include (Some o'))
                             declared))
          = Some (ensure_id (Some o'))) as -> by done.
  destruct (ensure_id (Some o')) as [o|] eqn:Hid;
    [|unfold ensure_id in Hid; by case_decide].
  exists o. split; [done|]. intros x.
  rewrite (elem_of_ensure_id _ _ _ Hid). split.
  - intros [?|(? & [= <-] & Hx)]; [by left|right; by apply Hinter].
  - intros [?|Hx]; [by left|]. right. exists o'. split; [done|]. by apply Hinter.
Qed.

Lemma only_is_intersection_with_id_witness :
  ∃ kw s o,
    compute_schema Sample.registry Sample.PersonSchema empty_kwargs
                   Sample.person_name None = (kw, Ok s)
    ∧ kw_only (kwargs s) = Some (Some o)
    ∧ ∀ x, x ∈ o ↔
           x = "id"
           ∨ (x ∈ keys (_declared_fields Sample.PersonSchema) ∧ x ∈ ["name"]
              ∧ ∀ d, get_only empty_kwargs = Some d → x ∈ d).
Proof.
  destruct (compute_schema Sample.registry Sample.PersonSchema empty_kwargs
              Sample.person_name None) as [kw [s|e]] eqn:Hrun; [|by vm_compute in Hrun].
  destruct (only_is_intersection_with_id Sample.registry Sample.PersonSchema
              empty_kwargs Sample.person_name None kw s "person" ["name"]
              eq_refl eq_refl Hrun) as (o & Ho & Hspec).
  by exists kw, s, o.
Defined.




(** ** The caller's dictionary *)

(** C4 fails on the code: [schema_kwargs] is the caller's [default_kwargs]
    itself, not a copy. A call on an empty dictionary and the sparse
    fieldset "name" leaves "include_data" and "only" in the dictionary;
    a later call on the same dictionary, for a request without sparse
    fieldset, builds a schema restricted to "name" and "id", where a call
    on a fresh dictionary builds an unrestricted one. *)
Theorem default_kwargs_written :
  ∃ kw s s' s'',
    compute_schema Sample.registry Sample.PersonSchema empty_kwargs
                   Sample.person_name None = (kw, Ok s)
    ∧ kw = mkKwargs (Some []) (Some (Some ["name"; "id"])) None None None
    ∧ kw ≠ empty_kwargs
    ∧ (compute_schema Sample.registry Sample.PersonSchema kw
                      Sample.no_fields None).2 = Ok s'
    ∧ get_only (kwargs s') = Some ["name"; "id"]
    ∧ (compute_schema Sample.registry Sample.PersonSchema empty_kwargs
                      Sample.no_fields None).2 = Ok s''
    ∧ get_only (kwargs s'') = None.
Proof.
  do 4 eexists. split; [vm_compute; reflexivity|].
  split; [reflexivity|]. split; [done|].
  split; [vm_compute; reflexivity|]. split; [reflexivity|].
  split; [vm_compute; reflexivity|]. reflexivity.
Qed.

(** ** Nested schemas *)

Lemma resolve_cases (registry : Registry) (ref : SchemaRef) (cls : SchemaClass) :
  resolve registry ref = Ok (Some cls) →
  ref = ByClass cls
  ∨ (∃ inst, ref = ByInstance inst ∧ __class__ inst = cls)
  ∨ (∃ classname, ref = ByName classname ∧ get_class registry classname = Ok cls).
Proof.
  destruct ref as [|c|inst|classname]; simpl; [done|..].
  - intros [= ->]. by left.
  - intros [= <-]. right. left. by exists inst.
  - destruct (get_class registry classname) as [c|] eqn:Hc; simpl; [|done].
    intros [= ->]. right. right. by exists classname.
Qed.

Lemma or_None_Some {A} (l : list A) : l ≠ [] → or_None l = Some l.
Proof. by destruct l. Qed.

Lemma remainders_of_dotted (path : string) (include : list string) :
  path ∈ include → has_dot path = true →
  remainders (first_segment path) include ≠ [].
Proof.
  intros Hin Hdot Hnil.
  assert (rest_of_path path ∈ remainders (first_segment path) include) as Hrest
    by (apply elem_of_remainders; by exists path).
  rewrite Hnil in Hrest. by apply elem_of_nil in Hrest.
Qed.

(** C5. For a dotted path of an accepted include list, the relationship
    named by the first segment ends up, in the schema returned, with a
    related schema that a recursive call of [compute_schema] computed.
    The call is on the related schema class, which is the stored class,
    the class of the stored instance, or the class registered under the
    stored name, and its include list holds the remainders of the
    include paths that share the first segment. *)
Theorem nested_schema_replaced (registry : Registry) (schema_cls : SchemaClass)
    (default_kwargs : Kwargs) (qs : QueryStringManager) (include : list string)
    (kw : Kwargs) (s : Schema) (path : string) :
  compute_schema registry schema_cls default_kwargs qs (Some include) = (kw, Ok s) →
  path ∈ include →
  has_dot path = true →
  ∃ f0 ref0 related_cls related_kwargs related_schema f,
    dict_get (first_segment path) (_declared_fields schema_cls) = Some f0
    ∧ _Relationship__schema f0 = Some ref0
    ∧ (ref0 = ByClass related_cls
       ∨ (∃ inst, ref0 = ByInstance inst ∧ __class__ inst = related_cls)
       ∨ (∃ classname, ref0 = ByName classname
                       ∧ get_class registry classname = Ok related_cls))
    ∧ (compute_schema registry related_cls related_kwargs qs
                      (Some (remainders (first_segment path) include))).2
      = Ok related_schema
    ∧ dict_get (first_segment path) (declared_fields s) = Some f
    ∧ _Relationship__schema f = Some (ByInstance related_schema).
Proof.
  intros (_ & only & filed & declared & _ & -> & -> & Hfiled & Hpaths)%compute_schema_Ok
         Hin Hdot.
  destruct (Hpaths path Hin)
    as (cls & sub & rkw & rs & f & (f0 & ref0 & Hf0 & Href0 & Hres) & Hsub & Hrec & Hf & Href).
  rewrite Hfiled in Hsub.
  rewrite decide_True in Hsub by (apply list_elem_of_fmap; by exists path).
  injection Hsub as <-. simpl in Hrec.
  rewrite or_None_Some in Hrec by by apply remainders_of_dotted.
  exists f0, ref0, cls, rkw, rs, f.
  split; [done|]. split; [done|]. split; [by apply resolve_cases|]. done.
Qed.

Lemma nested_schema_replaced_witness :
  ∃ kw s f0 ref0 related_cls related_kwargs related_schema f,
    compute_schema Sample.registry Sample.PersonSchema empty_kwargs Sample.no_fields
                   (Some ["computers.owner"]) = (kw, Ok s)
    ∧ dict_get "computers" (_declared_fields Sample.PersonSchema) = Some f0
    ∧ _Relationship__schema f0 = Some ref0
    ∧ (ref0 = ByClass related_cls
       ∨ (∃ inst, ref0 = ByInstance inst ∧ __class__ inst = related_cls)
       ∨ (∃ classname, ref0 = ByName classname
                       ∧ get_class Sample.registry classname = Ok related_cls))
    ∧ (compute_schema Sample.registry related_cls related_kwargs Sample.no_fields
                      (Some ["owner"])).2 = Ok related_schema
    ∧ dict_get "computers" (declared_fields s) = Some f
    ∧ _Relationship__schema f = Some (ByInstance related_schema).
Proof.
  destruct (compute_schema Sample.registry Sample.PersonSchema empty_kwargs
              Sample.no_fields (Some ["computers.owner"]))
    as [kw [s|e]] eqn:Hrun; [|by vm_compute in Hrun].
  destruct (nested_schema_replaced Sample.registry Sample.PersonSchema empty_kwargs
              Sample.no_fields ["computers.owner"] kw s "computers.owner" Hrun)
    as (f0 & ref0 & cls & rkw & rs & f & H);
    [apply list_elem_of_here | reflexivity |].
  by exists kw, s, f0, ref0, cls, rkw, rs, f.
Defined.

(** ** InvalidInclude *)

Lemma compute_schema_None_not_InvalidInclude (registry : Registry)
    (schema_cls : SchemaClass) (default_kwargs : Kwargs) (qs : QueryStringManager) :
  is_InvalidInclude (compute_schema registry schema_cls default_kwargs qs None).2 = false.
Proof.
  rewrite compute_schema_unfold.
  destruct (compute_schema_body_accepted
              (λ cls kw sub, compute_schema registry cls kw qs sub)
              registry qs schema_cls default_kwargs None eq_refl)
    as (filed & _ & ->).
  destruct (sparse_fieldsets schema_cls qs (get_only default_kwargs)) as [only|e] eqn:Hs.
  - done.
  - by apply sparse_fieldsets_Raise in Hs as [-> _].
Qed.

(** C1, as it stands, fails: "computers" is a declared relationship of a
    person, and yet the include path "computers.bogus" raises
    [InvalidInclude], from the recursive call on the computer schema. *)
Lemma invalid_include_from_nested_path :
  accepted Sample.PersonSchema (Some ["computers.bogus"])
  ∧ (∀ path, path ∈ ["computers.bogus"] → ¬ rejected Sample.PersonSchema path)
  ∧ (compute_schema Sample.registry Sample.PersonSchema empty_kwargs Sample.no_fields
                    (Some ["computers.bogus"])).2
    = Raise (InvalidInclude "ComputerSchema has no attribute bogus").
Proof.
  split; [by apply accepted_forallb|]. split; [|vm_compute; reflexivity].
  intros path ->%list_elem_of_singleton Hrej%accepts_false. done.
Qed.

(** C1, amended. [compute_schema] raises [InvalidInclude] whenever the
    first segment of some include path is not a key of the declared
    fields of the class, or is a declared field that is not a
    [Relationship]. When every first segment is a declared relationship,
    an [InvalidInclude] can only come out of the recursive call made for
    a dotted path, on the related class and the remainders of the paths
    under that field; without a dotted path none is raised. *)
Theorem invalid_include_spec (registry : Registry) (schema_cls : SchemaClass)
    (default_kwargs : Kwargs) (qs : QueryStringManager) (include : option (list string)) :
  ((∃ path, path ∈ default [] include ∧ rejected schema_cls path) →
   is_InvalidInclude (compute_schema registry schema_cls default_kwargs qs include).2 = true)
  ∧ (accepted schema_cls include →
     is_InvalidInclude (compute_schema registry schema_cls default_kwargs qs include).2 = true →
     ∃ path related_cls related_kwargs,
       path ∈ default [] include
       ∧ has_dot path = true
       ∧ related_class registry (_declared_fields schema_cls) (first_segment path) related_cls
       ∧ is_InvalidInclude
           (compute_schema registry related_cls related_kwargs qs
              (Some (remainders (first_segment path) (default [] include)))).2 = true)
  ∧ (accepted schema_cls include →
     (∀ path, path ∈ default [] include → has_dot path = false) →
     is_InvalidInclude (compute_schema registry schema_cls default_kwargs qs include).2
     = false).
Proof.
  rewrite rejected_forallb, accepted_forallb.
  assert (forallb (accepts schema_cls) (default [] include) = true →
          is_InvalidInclude
            (compute_schema registry schema_cls default_kwargs qs include).2 = true →
          ∃ path related_cls related_kwargs,
            path ∈ default [] include
            ∧ has_dot path = true
            ∧ related_class registry (_declared_fields schema_cls)
                (first_segment path) related_cls
            ∧ is_InvalidInclude
                (compute_schema registry related_cls related_kwargs qs
                   (Some (remainders (first_segment path) (default [] include)))).2
              = true) as Hnested.
  { intros Hacc. rewrite compute_schema_unfold.
    destruct (compute_schema_body_accepted
                (λ cls kw sub, compute_schema registry cls kw qs sub)
                registry qs schema_cls default_kwargs include Hacc)
      as (filed & Hfiled & ->).
    destruct (sparse_fieldsets schema_cls qs (get_only default_kwargs))
      as [only|e] eqn:Hsparse;
      [|by apply sparse_fieldsets_Raise in Hsparse as [-> _]].
    simpl.
    destruct (compound_documents _ _ _ _ _ _ _ _) as [declared|e] eqn:Hloop;
      simpl; [done|].
    intros Hinvalid.
    apply compound_documents_Raise with (declared0 := _declared_fields schema_cls)
      in Hloop as [Hlocal|(path & cls & sub & kw & Hin & Hcls & Hsub & Hrec)].
    - by destruct e.
    - rewrite Hfiled in Hsub.
      rewrite decide_True in Hsub by (apply list_elem_of_fmap; by exists path).
      injection Hsub as <-. simpl in Hrec.
      destruct (remainders (first_segment path) (default [] include))
        as [|rest rests] eqn:Hrem.
      + pose proof (compute_schema_None_not_InvalidInclude registry cls kw qs) as Hnone.
        simpl in Hrec. rewrite Hrec in Hnone. simpl in Hnone. congruence.
      + assert (rest ∈ remainders (first_segment path) (default [] include)) as Hrest
          by (rewrite Hrem; apply list_elem_of_here).
        apply elem_of_remainders in Hrest as (path' & Hin' & Hdot' & Hfirst & _).
        exists path', cls, kw. rewrite Hfirst, Hrem.
        split; [done|]. split; [done|]. split; [done|].
        simpl in Hrec. by rewrite Hrec.
    - intros cls kw sub s. apply compute_schema_class.
    - apply loop_invariant_start. }
  split; [|split; [done|]].
  - intros Hrej. rewrite compute_schema_unfold.
    destruct (compute_schema_body_rejected
                (λ cls kw sub, compute_schema registry cls kw qs sub)
                registry qs schema_cls default_kwargs include Hrej) as (kw & msg & ->).
    done.
  - intros Hacc Hnodot.
    apply not_true_is_false. intros Hinvalid.
    destruct (Hnested Hacc Hinvalid) as (path & _ & _ & Hin & Hdot & _).
    rewrite (Hnodot path Hin) in Hdot. done.
Qed.

Lemma invalid_include_spec_witness :
  is_InvalidInclude
    (compute_schema Sample.registry Sample.PersonSchema empty_kwargs Sample.no_fields
                    (Some ["computers"; "name.first"])).2 = true
  ∧ (∃ path related_cls related_kwargs,
       path ∈ ["computers.bogus"]
       ∧ has_dot path = true
       ∧ related_class Sample.registry (_declared_fields Sample.PersonSchema)
           (first_segment path) related_cls
       ∧ is_InvalidInclude
           (compute_schema Sample.registry related_cls related_kwargs Sample.no_fields
              (Some (remainders (first_segment path) ["computers.bogus"]))).2 = true)
  ∧ is_InvalidInclude
      (compute_schema Sample.registry Sample.PersonSchema empty_kwargs Sample.no_fields
                      (Some ["computers"])).2 = false.
Proof.
  split; [|split].
  - apply (proj1 (invalid_include_spec Sample.registry Sample.PersonSchema empty_kwargs
                    Sample.no_fields (Some ["computers"; "name.first"]))).
    apply rejected_forallb. reflexivity.
  - apply (proj1 (proj2 (invalid_include_spec Sample.registry Sample.PersonSchema
                           empty_kwargs Sample.no_fields (Some ["computers.bogus"])))).
    + apply accepted_forallb. reflexivity.
    + vm_compute. reflexivity.
  - apply (proj2 (proj2 (invalid_include_spec Sample.registry Sample.PersonSchema
                           empty_kwargs Sample.no_fields (Some ["computers"])))).
    + apply accepted_forallb. reflexivity.
    + intros path ->%list_elem_of_singleton. reflexivity.
Defined.


(** * Further properties *)

(** ** get_relationships and get_nested_fields *)

Lemma dict_get_elem_of {A} (k : string) (v : A) (d : list (string * A)) :
  dict_get k d = Some v → (k, v) ∈ d.
Proof.
  induction d as [|[k' v'] d IH]; simpl; [done|].
  destruct (String.eqb_spec k k') as [->|Hne].
  - intros [= ->]. apply list_elem_of_here.
  - intros ?. by apply list_elem_of_further, IH.
Qed.

(** In a dictionary, where no key is bound twice, a binding is what
    looking the key up gives. *)
Lemma elem_of_dict_get {A} (k : string) (v : A) (d : list (string * A)) :
  NoDup (keys d) → (k, v) ∈ d → dict_get k d = Some v.
Proof.
  induction d as [|[k' v'] d IH]; simpl; [by intros _ ?%elem_of_nil|].
  intros [Hk' Hd]%NoDup_cons [[= -> ->]|Hin]%elem_of_cons.
  - by rewrite String.eqb_refl.
  - destruct (String.eqb_spec k k') as [->|Hne]; [|by apply IH].
    destruct Hk'. apply list_elem_of_fmap. by exists (k', v).
Qed.

Lemma elem_of_selected_keys (P : Field → bool) (d : list (string * Field)) (k : string) :
  k ∈ keys (filter (λ kv, P kv.2) d) ↔ ∃ f, (k, f) ∈ d ∧ P f = true.
Proof.
  unfold keys. rewrite list_elem_of_fmap. split.
  - intros ([k' f] & -> & [HP Hin]%list_elem_of_filter). exists f. simpl in *.
    split; [done|]. by apply Is_true_true.
  - intros (f & Hin & HP). exists (k, f). split; [done|].
    apply list_elem_of_filter. split; [|done]. by apply Is_true_true.
Qed.

Lemma selected_keys_sublist (P : Field → bool) (d : list (string * Field)) :
  keys (filter (λ kv, P kv.2) d) `sublist_of` keys d.
Proof. unfold keys. apply fmap_sublist, sublist_filter. Qed.

Lemma selected_keys_declared (P : Field → bool) (d : list (string * Field)) (k : string) :
  k ∈ keys (filter (λ kv, P kv.2) d) → k ∈ keys d.
Proof.
  intros (f & Hin & _)%elem_of_selected_keys.
  apply list_elem_of_fmap. by exists (k, f).
Qed.

Lemma mapM_get_model_field (schema : SchemaClass) (names : list string) :
  (∀ k, k ∈ names → k ∈ keys (_declared_fields schema)) →
  ∃ models,
    mapM (get_model_field schema) names = Ok models
    ∧ Forall2 (λ k m, get_model_field schema k = Ok m) names models.
Proof.
  intros Hdeclared. exists (map (model_of schema) names). split.
  - apply mapM_Ok. intros k Hk. by apply get_model_field_declared, Hdeclared.
  - apply Forall2_fmap_r, Forall_Forall2_diag, Forall_forall.
    intros k Hk. by apply get_model_field_declared, Hdeclared.
Qed.

(** X1. [get_relationships] lists the keys of the declared fields that
    are relationships, in the order of their declaration, and never
    raises: asked for model fields, it finds the model field of each of
    the keys it lists. *)
Theorem get_relationships_spec (schema : SchemaClass) :
  ∃ names models,
    get_relationships schema false = Ok names
    ∧ (∀ k, k ∈ names ↔
            ∃ f, (k, f) ∈ _declared_fields schema ∧ is_Relationship f = true)
    ∧ names `sublist_of` keys (_declared_fields schema)
    ∧ get_relationships schema true = Ok models
    ∧ Forall2 (λ k m, get_model_field schema k = Ok m) names models.
Proof.
  unfold get_relationships.
  destruct (mapM_get_model_field schema
              (keys (filter (λ kv, is_Relationship kv.2) (_declared_fields schema))))
    as (models & Hmodels & Hall); [apply selected_keys_declared|].
  eexists _, models. split; [done|].
  split; [apply (elem_of_selected_keys is_Relationship)|].
  split; [apply (selected_keys_sublist is_Relationship)|]. done.
Qed.

(** X2. [get_nested_fields] lists the keys of the declared fields that
    are [Nested], or a [List] of [Nested], in the order of their
    declaration, and never raises: asked for model fields, it finds the
    model field of each of the keys it lists. *)
Theorem get_nested_fields_spec (schema : SchemaClass) :
  ∃ names models,
    get_nested_fields schema false = Ok names
    ∧ (∀ k, k ∈ names ↔
            ∃ f, (k, f) ∈ _declared_fields schema
                 ∧ (is_Nested f = true ∨ is_List_of_Nested f = true))
    ∧ names `sublist_of` keys (_declared_fields schema)
    ∧ get_nested_fields schema true = Ok models
    ∧ Forall2 (λ k m, get_model_field schema k = Ok m) names models.
Proof.
  unfold get_nested_fields.
  destruct (mapM_get_model_field schema
              (keys (filter (λ kv, is_List_of_Nested kv.2 || is_Nested kv.2)
                            (_declared_fields schema))))
    as (models & Hmodels & Hall);
    [apply (selected_keys_declared (λ f, is_List_of_Nested f || is_Nested f))|].
  eexists _, models. split; [done|]. split; [|split; [|done]].
  - intros k.
    rewrite (elem_of_selected_keys (λ f, is_List_of_Nested f || is_Nested f)).
    split; intros (f & Hin & Hkind); exists f; (split; [done|]).
    + apply orb_true_iff in Hkind. tauto.
    + apply orb_true_iff. tauto.
  - apply (selected_keys_sublist (λ f, is_List_of_Nested f || is_Nested f)).
Qed.

(** ** The relationships that can be included *)

Lemma accepts_relationships (schema_cls : SchemaClass) (names : list string) (field : string) :
  NoDup (keys (_declared_fields schema_cls)) →
  get_relationships schema_cls false = Ok names →
  field ∈ names ↔
  ∃ f, dict_get field (_declared_fields schema_cls) = Some f ∧ is_Relationship f = true.
Proof.
  intros Hkeys [= <-]. rewrite (elem_of_selected_keys is_Relationship). split.
  - intros (f & Hin & Hrel). exists f. split; [by apply elem_of_dict_get|done].
  - intros (f & Hget & Hrel). exists f. split; [by apply dict_get_elem_of|done].
Qed.

(** X3. The include paths that [compute_schema] accepts are those whose
    first segment is one of the names that [get_relationships] lists for
    the class: a path whose first segment is not among them makes
    [compute_schema] raise [InvalidInclude]. *)
Theorem include_names_relationships (registry : Registry) (schema_cls : SchemaClass)
    (default_kwargs : Kwargs) (qs : QueryStringManager) (include : option (list string))
    (names : list string) :
  NoDup (keys (_declared_fields schema_cls)) →
  get_relationships schema_cls false = Ok names →
  (accepted schema_cls include ↔
   ∀ path, path ∈ default [] include → first_segment path ∈ names)
  ∧ ((∃ path, path ∈ default [] include ∧ first_segment path ∉ names) →
     is_InvalidInclude
       (compute_schema registry schema_cls default_kwargs qs include).2 = true).
Proof.
  intros Hkeys Hnames.
  assert (accepted schema_cls include ↔
          ∀ path, path ∈ default [] include → first_segment path ∈ names) as Hacc.
  { unfold accepted. split; intros Hall path Hin.
    - by apply (accepts_relationships schema_cls names), Hall.
    - by apply (accepts_relationships schema_cls names), Hall. }
  split; [done|]. intros (path & Hin & Hout).
  destruct (forallb (accepts schema_cls) (default [] include)) eqn:Hrun.
  - apply accepted_forallb in Hrun. destruct Hout. by apply Hacc.
  - rewrite compute_schema_unfold.
    destruct (compute_schema_body_rejected
                (λ cls kw sub, compute_schema registry cls kw qs sub)
                registry qs schema_cls default_kwargs include Hrun) as (kw & msg & ->).
    done.
Qed.

Lemma include_names_relationships_witness :
  (accepted Sample.PersonSchema (Some ["name"; "computers"]) ↔
   ∀ path, path ∈ ["name"; "computers"] → first_segment path ∈ ["computers"])
  ∧ ((∃ path, path ∈ ["name"; "computers"] ∧ first_segment path ∉ ["computers"]) →
     is_InvalidInclude
       (compute_schema Sample.registry Sample.PersonSchema empty_kwargs Sample.no_fields
                       (Some ["name"; "computers"])).2 = true).
Proof.
  apply (include_names_relationships Sample.registry Sample.PersonSchema empty_kwargs
           Sample.no_fields (Some ["name"; "computers"]) ["computers"]).
  - apply (bool_decide_unpack _). by vm_compute.
  - reflexivity.
Defined.

Lemma _Relationship__schema_Some (f : Field) (r : SchemaRef) :
  _Relationship__schema f = Some r ↔ kind f = Relationship r.
Proof.
  unfold _Relationship__schema. destruct (kind f); split; try done.
  - by intros [= ->].
  - by intros [= ->].
Qed.

(** X4. [get_related_schema] answers for exactly the names that
    [get_relationships] lists, with what the relationship stores; for
    any other name it raises [KeyError], on the name when it is not
    declared and on the private attribute when the field is not a
    relationship. *)
Theorem get_related_schema_spec (schema : SchemaClass) (field : string)
    (names : list string) :
  NoDup (keys (_declared_fields schema)) →
  get_relationships schema false = Ok names →
  (raises (get_related_schema schema field) = false ↔ field ∈ names)
  ∧ (∀ r, get_related_schema schema field = Ok r ↔
          ∃ f, (field, f) ∈ _declared_fields schema ∧ kind f = Relationship r)
  ∧ (field ∉ keys (_declared_fields schema) →
     get_related_schema schema field = Raise (KeyError field))
  ∧ (field ∈ keys (_declared_fields schema) → field ∉ names →
     get_related_schema schema field = Raise (KeyError "_Relationship__schema")).
Proof.
  intros Hkeys Hnames.
  pose proof (accepts_relationships schema names field Hkeys Hnames) as Hfield.
  unfold get_related_schema. split; [|split; [|split]].
  - rewrite Hfield.
    destruct (dict_get field (_declared_fields schema)) as [f|] eqn:Hf; simpl.
    + unfold is_Relationship, _Relationship__schema.
      destruct (kind f) eqn:Hkind; simpl; split; try done;
        try (by intros (? & [= <-] & Hrel); rewrite Hkind in Hrel).
      intros _. exists f. by rewrite Hkind.
    + split; [done|]. by intros (? & ? & _).
  - intros r. split.
    + destruct (dict_get field (_declared_fields schema)) as [f|] eqn:Hf; [|done].
      destruct (_Relationship__schema f) as [r'|] eqn:Hr; [|done].
      intros [= <-]. exists f. split; [by apply dict_get_elem_of|].
      by apply _Relationship__schema_Some.
    + intros (f & Hin & Hkind). rewrite (elem_of_dict_get _ _ _ Hkeys Hin).
      by rewrite (proj2 (_Relationship__schema_Some f r) Hkind).
  - intros Hout%dict_get_None. by rewrite Hout.
  - intros [f Hf]%dict_get_key Hout. rewrite Hf.
    destruct (_Relationship__schema f) as [r|] eqn:Hr; [|done].
    destruct Hout. apply Hfield. exists f. split; [done|].
    unfold is_Relationship. by rewrite (proj1 (_Relationship__schema_Some f r) Hr).
Qed.

Lemma get_related_schema_spec_witness :
  (raises (get_related_schema Sample.PersonSchema "computers") = false
   ↔ "computers" ∈ ["computers"])
  ∧ (∀ r, get_related_schema Sample.PersonSchema "computers" = Ok r ↔
          ∃ f, ("computers", f) ∈ _declared_fields Sample.PersonSchema
               ∧ kind f = Relationship r)
  ∧ ("computers" ∉ keys (_declared_fields Sample.PersonSchema) →
     get_related_schema Sample.PersonSchema "computers" = Raise (KeyError "computers"))
  ∧ ("computers" ∈ keys (_declared_fields Sample.PersonSchema) →
     "computers" ∉ ["computers"] →
     get_related_schema Sample.PersonSchema "computers"
     = Raise (KeyError "_Relationship__schema")).
Proof.
  apply (get_related_schema_spec Sample.PersonSchema "computers" ["computers"]).
  - apply (bool_decide_unpack _). by vm_compute.
  - reflexivity.
Defined.

(** ** get_schema_field and get_model_field *)

(** X5. What [get_schema_field] returns for a model field is a declared
    schema field whose model field it is, and the first such in the
    order of declaration. *)
Theorem get_schema_field_first (schema : SchemaClass) (field key : string) :
  get_schema_field schema field = Ok key →
  get_model_field schema key = Ok field
  ∧ ∃ before after,
      keys (_declared_fields schema) = (before ++ key :: after)%list
      ∧ ∀ k, k ∈ before → get_model_field schema k ≠ Ok field.
Proof.
  rewrite get_schema_field_unfold.
  intros (before & after & Heq & Hbefore)%get_schema_field_loop_Ok.
  assert (key ∈ keys (_declared_fields schema) ∧ field = model_of schema key)
    as [Hkey ->].
  { apply elem_of_fields_to_model. rewrite Heq.
    apply elem_of_app. right. apply list_elem_of_here. }
  split; [by apply get_model_field_declared|].
  exists (map fst before), (map fst after). split.
  - unfold keys. apply (f_equal (map fst)) in Heq.
    rewrite map_map, map_app in Heq. simpl in Heq. rewrite <- Heq.
    by apply map_ext.
  - intros k ([k' m] & -> & Hin)%list_elem_of_fmap. simpl.
    assert (k' ∈ keys (_declared_fields schema) ∧ m = model_of schema k') as [Hk' ->].
    { apply elem_of_fields_to_model. rewrite Heq. apply elem_of_app. by left. }
    rewrite get_model_field_declared by done.
    intros [= Hm]. by apply (Hbefore _ Hin).
Qed.

Lemma get_schema_field_first_witness :
  get_model_field Sample.ComputerSchema "serial" = Ok "serial_number"
  ∧ ∃ before after,
      keys (_declared_fields Sample.ComputerSchema) = (before ++ "serial" :: after)%list
      ∧ ∀ k, k ∈ before → get_model_field Sample.ComputerSchema k ≠ Ok "serial_number".
Proof.
  apply (get_schema_field_first Sample.ComputerSchema "serial_number" "serial").
  reflexivity.
Defined.

(** ** What compute_schema writes to the caller's dictionary *)

Lemma collect_includes_frame (schema_cls : SchemaClass) (include : list string)
    (schema_kwargs : Kwargs) (related_includes : gmap string (list string)) :
  let kw := (collect_includes schema_cls include schema_kwargs related_includes).1 in
  kw_only kw = kw_only schema_kwargs
  ∧ kw_exclude kw = kw_exclude schema_kwargs
  ∧ kw_many kw = kw_many schema_kwargs
  ∧ kw_context kw = kw_context schema_kwargs.
Proof.
  revert schema_kwargs related_includes.
  induction include as [|path include IH]; intros kw ri; simpl; [done|].
  destruct (dict_get (first_segment path) (_declared_fields schema_cls)) as [f|];
    [|done].
  destruct (is_Relationship f); simpl; [|done].
  exact (IH _ _).
Qed.

(** What a call leaves of the keys it does not write, and the
    dictionary that the returned schema was built on. *)
Lemma compute_schema_keeps (registry : Registry) (schema_cls : SchemaClass)
    (default_kwargs : Kwargs) (qs : QueryStringManager) (include : option (list string)) :
  let after := (compute_schema registry schema_cls default_kwargs qs include).1 in
  kw_exclude after = kw_exclude default_kwargs
  ∧ kw_many after = kw_many default_kwargs
  ∧ kw_context after = kw_context default_kwargs
  ∧ ∀ s, (compute_schema registry schema_cls default_kwargs qs include).2 = Ok s →
         kwargs s = after.
Proof.
  rewrite compute_schema_unfold. unfold compute_schema_body.
  pose proof (collect_includes_frame schema_cls (default [] include)
                (set_include_data [] default_kwargs) ∅) as Hframe.
  destruct (collect_includes schema_cls (default [] include)
              (set_include_data [] default_kwargs) ∅) as [kw [filed|e]];
    simpl in Hframe; destruct Hframe as (Honly & Hexclude & Hmany & Hcontext).
  - destruct (sparse_fieldsets schema_cls qs (get_only kw)) as [only|e]; simpl.
    + split; [done|]. split; [done|]. split; [done|]. intros s.
      destruct (compound_documents _ _ _ _ _ _ _ _); simpl; [|done].
      by intros [= <-].
    + done.
  - done.
Qed.

(** X6. Of the caller's dictionary, [compute_schema] writes the keys
    "include_data" and "only" and no other: "exclude", "many" and
    "context" are after the call what they were before it, whether the
    call returns or raises, and they are what the returned schema was
    built with. *)
Theorem compute_schema_frame (registry : Registry) (schema_cls : SchemaClass)
    (default_kwargs : Kwargs) (qs : QueryStringManager) (include : option (list string)) :
  let after := (compute_schema registry schema_cls default_kwargs qs include).1 in
  kw_exclude after = kw_exclude default_kwargs
  ∧ kw_many after = kw_many default_kwargs
  ∧ kw_context after = kw_context default_kwargs
  ∧ ∀ s, (compute_schema registry schema_cls default_kwargs qs include).2 = Ok s →
         kwargs s = after.
Proof. apply compute_schema_keeps. Qed.

(** X7. Without a sparse fieldset for the type of the class, the schema
    is built with the caller's [only]: none when the caller gave none,
    and otherwise the caller's names in their order, with "id" added at
    the end when it is not among them. *)
Theorem only_without_sparse_fieldset (registry : Registry) (schema_cls : SchemaClass)
    (default_kwargs : Kwargs) (qs : QueryStringManager) (include : option (list string))
    (kw : Kwargs) (s : Schema) (t : string) :
  type_ schema_cls = Some t →
  fields qs !! t = None →
  compute_schema registry schema_cls default_kwargs qs include = (kw, Ok s) →
  (get_only default_kwargs = None → kw_only (kwargs s) = Some None)
  ∧ (∀ o, get_only default_kwargs = Some o → "id" ∈ o →
          kw_only (kwargs s) = Some (Some o))
  ∧ (∀ o, get_only default_kwargs = Some o → "id" ∉ o →
          kw_only (kwargs s) = Some (Some (o ++ ["id"])%list)).
Proof.
  intros Ht Hnone
    (_ & only & filed & declared & Hsparse & -> & -> & _)%compute_schema_Ok.
  unfold sparse_fieldsets in Hsparse. rewrite Ht, Hnone in Hsparse.
  injection Hsparse as <-.
  assert (kw_only (kwargs (mkSchema schema_cls
                             (constructor_kwargs default_kwargs include
                                (get_only default_kwargs)) declared))
          = Some (ensure_id (get_only default_kwargs))) as -> by done.
  split; [by intros ->|]. split; intros o -> Hid; simpl.
  - by rewrite decide_True.
  - by rewrite decide_False.
Qed.

Lemma only_without_sparse_fieldset_witness :
  ∃ kw s,
    compute_schema Sample.registry Sample.PersonSchema
      (set_only (Some ["name"; "computers"]) empty_kwargs) Sample.tag_id None
    = (kw, Ok s)
    ∧ kw_only (kwargs s) = Some (Some ["name"; "computers"; "id"]).
Proof.
  destruct (compute_schema Sample.registry Sample.PersonSchema
              (set_only (Some ["name"; "computers"]) empty_kwargs) Sample.tag_id None)
    as [kw [s|e]] eqn:Hrun; [|by vm_compute in Hrun].
  exists kw, s. split; [done|].
  refine (proj2 (proj2 (only_without_sparse_fieldset Sample.registry Sample.PersonSchema
                          (set_only (Some ["name"; "computers"]) empty_kwargs)
                          Sample.tag_id None kw s "person" eq_refl eq_refl Hrun))
            ["name"; "computers"] eq_refl _).
  apply (bool_decide_unpack _). by vm_compute.
Defined.

(** ** The first rejected include path *)

Lemma set_include_data_same (data : list string) (kw : Kwargs) :
  kw_include_data kw = Some data → set_include_data data kw = kw.
Proof. destruct kw; simpl; by intros ->. Qed.

Lemma collect_includes_first_rejected (schema_cls : SchemaClass)
    (before after : list string) (path : string)
    (schema_kwargs : Kwargs) (related_includes : gmap string (list string))
    (data : list string) :
  kw_include_data schema_kwargs = Some data →
  forallb (accepts schema_cls) before = true →
  accepts schema_cls path = false →
  collect_includes schema_cls (before ++ path :: after) schema_kwargs related_includes
  = (set_include_data (data ++ map first_segment before) schema_kwargs,
     Raise (InvalidInclude (include_error schema_cls path))).
Proof.
  revert schema_kwargs related_includes data.
  induction before as [|path' before IH]; intros kw ri data Hdata; simpl.
  - intros _. unfold accepts, include_error. rewrite app_nil_r.
    rewrite (set_include_data_same data kw Hdata).
    destruct (dict_get (first_segment path) (_declared_fields schema_cls)) as [f|];
      [|done].
    by intros ->.
  - unfold accepts at 1.
    destruct (dict_get (first_segment path') (_declared_fields schema_cls)) as [f|];
      [|done].
    destruct (is_Relationship f); simpl; [|done].
    intros Hbefore Hpath. rewrite Hdata. simpl.
    erewrite IH; [|reflexivity|done..].
    by rewrite set_include_data_twice, <- app_assoc.
Qed.

(** X8. When include paths are rejected, [compute_schema] raises for the
    first of them, with a message that tells an undeclared name from a
    field that is not a relationship, and it raises before it reads the
    sparse fieldsets or builds anything: the caller's dictionary is left
    with the first segments of the paths before the rejected one as
    "include_data", and otherwise as it was. *)
Theorem first_rejected_path (registry : Registry) (schema_cls : SchemaClass)
    (default_kwargs : Kwargs) (qs : QueryStringManager)
    (before after : list string) (path : string) :
  accepted schema_cls (Some before) →
  rejected schema_cls path →
  compute_schema registry schema_cls default_kwargs qs
                 (Some (before ++ path :: after)%list)
  = (set_include_data (map first_segment before) default_kwargs,
     Raise (InvalidInclude (include_error schema_cls path))).
Proof.
  intros Hbefore%accepted_forallb Hpath%accepts_false.
  rewrite compute_schema_unfold. unfold compute_schema_body. simpl in *.
  by rewrite (collect_includes_first_rejected schema_cls before after path
                (set_include_data [] default_kwargs) ∅ [] eq_refl Hbefore Hpath).
Qed.

Lemma first_rejected_path_witness :
  compute_schema Sample.registry Sample.PersonSchema
    (set_only (Some ["name"]) empty_kwargs) Sample.person_name
    (Some (["computers.owner"] ++ "name.first" :: ["bogus"])%list)
  = (set_include_data ["computers"] (set_only (Some ["name"]) empty_kwargs),
     Raise (InvalidInclude "name is not a relationship attribute of PersonSchema")).
Proof.
  apply (first_rejected_path Sample.registry Sample.PersonSchema
           (set_only (Some ["name"]) empty_kwargs) Sample.person_name
           ["computers.owner"] ["bogus"] "name.first").
  - apply accepted_forallb. reflexivity.
  - apply accepts_false. reflexivity.
Defined.

(** ** No include path *)



(** ** The fields of the schema returned *)


Lemma same_but_schema_refl (f : Field) : same_but_schema f f.
Proof. done. Qed.








(** ** The keyword arguments of the related schemas *)














(** ** Include paths without a dot *)




(** ** Relationships whose schema cannot be resolved *)



(** ** The segments of an include path *)

Lemma split_no_dot (s : string) : Forall (λ seg, has_dot seg = false) (split s).
Proof.
  induction s as [|c s IH]; simpl; [by apply Forall_singleton|].
  destruct (Ascii.eqb c dot) eqn:Hc; [by constructor|].
  pose proof (split_nonempty s) as Hne.
  destruct (split s) as [|seg segs]; [done|].
  apply Forall_cons in IH as [Hseg Hsegs]. constructor; [|done].
  simpl. by rewrite Hc.
Qed.

Lemma split_undotted (s : string) : has_dot s = false → split s = [s].
Proof.
  induction s as [|c s IH]; simpl; [done|].
  destruct (Ascii.eqb c dot); simpl; [done|]. intros Hs. by rewrite IH.
Qed.

Lemma split_app_dot (seg rest : string) :
  has_dot seg = false → split (seg ++ String dot rest) = seg :: split rest.
Proof.
  induction seg as [|c seg IH]; simpl; [done|].
  destruct (Ascii.eqb c dot); simpl; [done|]. intros Hseg. by rewrite IH.
Qed.

Lemma split_join (segs : list string) :
  segs ≠ [] → Forall (λ seg, has_dot seg = false) segs → split (join segs) = segs.
Proof.
  induction segs as [|seg segs IH]; [done|]. intros _ [Hseg Hsegs]%Forall_cons.
  destruct segs as [|seg' segs]; [by apply split_undotted|].
  change (join (seg :: seg' :: segs)) with (seg ++ String dot (join (seg' :: segs))).
  rewrite split_app_dot by done. by rewrite IH.
Qed.

(** X16. The first segment of an include path has no dot, and is the
    whole path when the path has none. A dotted path is its first
    segment, a dot, and the rest, and the segments of the rest are the
    segments of the path after the first: each level of the recursion
    consumes one segment. *)
Theorem include_path_segments (path : string) :
  has_dot (first_segment path) = false
  ∧ (has_dot path = false → first_segment path = path ∧ split path = [path])
  ∧ (has_dot path = true →
     path = first_segment path ++ "." ++ rest_of_path path
     ∧ split (rest_of_path path) = tl (split path)
     ∧ List.length (split (rest_of_path path)) + 1 = List.length (split path)).
Proof.
  pose proof (split_no_dot path) as Hsegs.
  pose proof (split_nonempty path) as Hne. split; [|split].
  - unfold first_segment. destruct (split path) as [|seg segs]; [done|].
    by apply Forall_cons in Hsegs as [? _].
  - intros Hdot. unfold first_segment. by rewrite split_undotted.
  - intros Hdot. split; [by apply first_segment_rest|].
    assert (split (rest_of_path path) = tl (split path)) as ->.
    { unfold rest_of_path. apply has_dot_split in Hdot.
      destruct (split path) as [|seg segs]; [done|].
      apply Forall_cons in Hsegs as [_ Hsegs]. by apply split_join. }
    split; [done|]. destruct (split path); [done|]. simpl. lia.
Qed.

Lemma include_path_segments_witness :
  "owner.computers.serial" = first_segment "owner.computers.serial" ++ "."
                             ++ rest_of_path "owner.computers.serial"
  ∧ split (rest_of_path "owner.computers.serial") = tl (split "owner.computers.serial")
  ∧ List.length (split (rest_of_path "owner.computers.serial")) + 1
    = List.length (split "owner.computers.serial").
Proof.
  apply (proj2 (proj2 (include_path_segments "owner.computers.serial"))).
  reflexivity.
Defined.

(** ** The exceptions of compute_schema *)







(** ** The recursion of compute_schema, once more *)

(** X18. The recursion of [compute_schema] ends: every include path
    handed to a recursive call is strictly shorter than a path of the
    caller that it is the rest of, so the calls nest no deeper than the
    longest path allows. The bound of the definition is never reached,
    and more fuel changes nothing. *)
Theorem compute_schema_recursion (registry : Registry) (schema_cls : SchemaClass)
    (default_kwargs : Kwargs) (qs : QueryStringManager) (include : option (list string)) :
  (∀ field rest,
     rest ∈ remainders field (default [] include) →
     ∃ path, path ∈ default [] include ∧ rest = rest_of_path path
             ∧ (String.length rest < String.length path)%nat)
  ∧ (compute_schema registry schema_cls default_kwargs qs include).2
    ≠ Raise RecursionError
  ∧ ∀ fuel, (2 + longest include ≤ fuel)%nat →
            compute_schema_fuel fuel registry qs schema_cls default_kwargs include
            = compute_schema registry schema_cls default_kwargs qs include.
Proof.
  split; [|split].
  - intros field rest (path & Hin & Hdot & _ & ->)%elem_of_remainders.
    exists path. split; [done|]. split; [done|]. by apply rest_of_path_shorter.
  - apply compute_schema_no_RecursionError.
  - intros fuel Hfuel. pose proof (needs_le_longest include).
    apply compute_schema_fuel_stable; lia.
Qed.

Lemma compute_schema_recursion_witness :
  compute_schema_fuel 30 Sample.registry Sample.no_fields Blog.ArticleSchema
                      Blog.view_kwargs (Some ["owner.computers.owner"])
  = compute_schema Sample.registry Blog.ArticleSchema Blog.view_kwargs
                   Sample.no_fields (Some ["owner.computers.owner"]).
Proof.
  apply (proj2 (proj2 (compute_schema_recursion Sample.registry Blog.ArticleSchema
                         Blog.view_kwargs Sample.no_fields
                         (Some ["owner.computers.owner"]))) 30).
  vm_compute. lia.
Defined.

(** ** A stale include_data *)

(** X19. What the caller's dictionary holds under "include_data" has no
    effect on a call, neither on what it returns nor on what it leaves
    in the dictionary: line 24 overwrites it before anything reads it. *)
Theorem stale_include_data (registry : Registry) (schema_cls : SchemaClass)
    (default_kwargs : Kwargs) (qs : QueryStringManager) (include : option (list string))
    (stale : list string) :
  compute_schema registry schema_cls (set_include_data stale default_kwargs) qs include
  = compute_schema registry schema_cls default_kwargs qs include.
Proof. rewrite !compute_schema_unfold. reflexivity. Qed.
